(** * deno-gfm: Markdown to sanitized HTML, and Markdown to plain-text sections

    A shallow embedding of [mod.ts].  The module renders GitHub flavoured
    Markdown through marked with its own [Renderer] (heading, image, code,
    link), filters the result through sanitize-html with allow-lists built in
    [render], and reduces a token stream to plain-text sections
    ([stripTokens], [stripSplitBySections], [strip]).

    The third-party engines (marked, sanitize-html, Prism, KaTeX, he, emoji,
    the WHATWG [URL] class) are not part of the module: they are gathered in
    the class [Collaborators] and every definition is parametric in it. *)

From Stdlib Require Import NArith String Ascii List Lia.
From stdpp Require Import base option list gmap pretty.

Local Open Scope string_scope.
Local Open Scope list_scope.
Local Open Scope N_scope.

(** ** JavaScript strings

    A JavaScript string is a sequence of UTF-16 code units. *)

Abbreviation jsstring := (list N).

(** A literal, written with an ASCII Rocq string. *)
Definition js (s : string) : jsstring :=
  (fun a => N_of_ascii a) <$> list_ascii_of_string s.

(** A literal in which the apostrophe stands for the double quote (none of
    the templates of [mod.ts] holds an apostrophe). *)
Definition jsq (s : string) : jsstring :=
  (fun c => if c =? 39 then 34 else c) <$> js s.

Definition NL : N := 10.
Definition DOLLAR : N := 36.

(** ECMAScript [LineTerminator]: the code units that [.] refuses. *)
Definition isLineTerminator (c : N) : bool :=
  (c =? 10) || (c =? 13) || (c =? 0x2028) || (c =? 0x2029).

(** ECMAScript [WhiteSpace] and [LineTerminator]: what [trim] strips and what
    [\s] accepts. *)
Definition isWhiteSpace (c : N) : bool :=
  isLineTerminator c
  || (c =? 9) || (c =? 11) || (c =? 12) || (c =? 32) || (c =? 160)
  || (c =? 0x1680) || ((0x2000 <=? c) && (c <=? 0x200A))
  || (c =? 0x202F) || (c =? 0x205F) || (c =? 0x3000) || (c =? 0xFEFF).

Fixpoint trimStart (s : jsstring) : jsstring :=
  match s with
  | c :: s' => if isWhiteSpace c then trimStart s' else s
  | [] => []
  end.

Definition trimEnd (s : jsstring) : jsstring :=
  reverse (trimStart (reverse s)).

(** [String.prototype.trim] *)
Definition trim (s : jsstring) : jsstring := trimEnd (trimStart s).

(** [String.prototype.startsWith] *)
Fixpoint startsWith (s p : jsstring) {struct p} : bool :=
  match p, s with
  | [], _ => true
  | c :: p', d :: s' => (c =? d) && startsWith s' p'
  | _ :: _, [] => false
  end.

(** [s.split(",")[0]]: the text before the first comma, all of [s] when it
    has none. *)
Fixpoint split_comma_first (s : jsstring) : jsstring :=
  match s with
  | [] => []
  | c :: s' => if c =? 44 then [] else c :: split_comma_first s'
  end.

(** [Array.prototype.join] *)
Fixpoint join (sep : jsstring) (l : list jsstring) : jsstring :=
  match l with
  | [] => []
  | [x] => x
  | x :: l' => x ++ sep ++ join sep l'
  end.

(** A JavaScript value used as a condition: a string is truthy when it is
    defined and not empty. *)
Definition truthy (o : option jsstring) : bool :=
  match o with
  | Some (_ :: _) => true
  | _ => false
  end.

(** ** Global regular-expression replacement

    [s.replace(re, f)] for a global [re] that never matches the empty string:
    the scan goes left to right; at a position that no earlier match covers,
    the matcher [m] is tried on the rest of the string and answers with the
    matched text and its first capture group; a match is replaced by [f] of
    both and the scan resumes behind it; otherwise the code unit is kept. *)

Definition Matcher := jsstring -> option (jsstring * jsstring).

Fixpoint replace_scan (m : Matcher) (f : jsstring -> jsstring -> jsstring)
    (skip : nat) (s : jsstring) : jsstring :=
  match s with
  | [] => []
  | c :: s' =>
      match skip with
      | S k => replace_scan m f k s'
      | O =>
          match m s with
          | Some (matched, p1) =>
              f matched p1 ++ replace_scan m f (Nat.pred (length matched)) s'
          | None => c :: replace_scan m f O s'
          end
      end
  end.

Definition replace (m : Matcher) (f : jsstring -> jsstring -> jsstring)
    (s : jsstring) : jsstring :=
  replace_scan m f O s.

(** [/\n{3,}/]: three or more line feeds, as many as there are. *)
Fixpoint newline_run (s : jsstring) : jsstring :=
  match s with
  | c :: s' => if c =? NL then c :: newline_run s' else []
  | [] => []
  end.

Definition NEWLINES_REGEXP : Matcher := fun s =>
  let run := newline_run s in
  if (3 <=? length run)%nat then Some (run, []) else None.

(** [.replace(/\n{3,}/g, "\n")] *)
Definition collapse_newlines (s : jsstring) : jsstring :=
  replace NEWLINES_REGEXP (fun _ _ => [NL]) s.

(** [BLOCK_MATH_REGEXP = /\$\$\s(.+?)\s\$\$/g].  After [$$] and one white
    space, the lazy group takes one code unit that is no line terminator and
    then as few more as possible before a white space followed by [$$]. *)
Fixpoint block_math_tail (p1 : jsstring) (s : jsstring)
    : option (jsstring * N) :=
  match s with
  | [] => None
  | c :: s' =>
      if isWhiteSpace c && startsWith s' [DOLLAR; DOLLAR]
      then Some (p1, c)
      else if isLineTerminator c then None
      else block_math_tail (p1 ++ [c]) s'
  end.

Definition BLOCK_MATH_REGEXP : Matcher := fun s =>
  match s with
  | d1 :: d2 :: w :: c :: s' =>
      if (d1 =? DOLLAR) && (d2 =? DOLLAR) && isWhiteSpace w
         && negb (isLineTerminator c)
      then
        match block_math_tail [c] s' with
        | Some (p1, w') =>
            Some ([DOLLAR; DOLLAR; w] ++ p1 ++ [w'; DOLLAR; DOLLAR], p1)
        | None => None
        end
      else None
  | _ => None
  end.

(** [INLINE_MATH_REGEXP = /\s\$((?=\S).*?(?=\S))\$/g].  After a white space
    and [$], the next code unit must not be a white space; the lazy group
    then takes as few code units (no line terminator) as possible before a
    [$], which the second lookahead sees as a non-space. *)
Fixpoint inline_math_tail (p1 : jsstring) (s : jsstring) : option jsstring :=
  match s with
  | [] => None
  | c :: s' =>
      if negb (isWhiteSpace c) && (c =? DOLLAR)
      then Some p1
      else if isLineTerminator c then None
      else inline_math_tail (p1 ++ [c]) s'
  end.

Definition INLINE_MATH_REGEXP : Matcher := fun s =>
  match s with
  | w :: d :: (c :: _) as s' =>
      if isWhiteSpace w && (d =? DOLLAR) && negb (isWhiteSpace c)
      then
        match inline_math_tail [] s' with
        | Some p1 => Some ([w; DOLLAR] ++ p1 ++ [DOLLAR], p1)
        | None => None
        end
      else None
  | _ => None
  end.

(** The text of a formula between the delimiters: no line terminator and no
    dollar sign. *)
Definition formula_text (formula : jsstring) : Prop :=
  Forall (fun c => isLineTerminator c = false /\ c <> DOLLAR) formula.

(** ** Results of calls that may throw *)

Inductive Result (A : Type) : Type :=
| Ok (a : A)
| Throw (e : jsstring).
Arguments Ok {A} a.
Arguments Throw {A} e.

(** ** Data model *)

(** [sanitizeHtml.AllowedAttribute]: an attribute name, or a name with the
    values it may take. *)
Inductive AllowedAttribute : Type :=
| AttrName (name : jsstring)
| AttrValues (name : jsstring) (values : list jsstring).

(** An entry of [allowedClasses]: [boolean | Array<string | RegExp>]. *)
Inductive ClassPattern : Type :=
| ClassGlob (pattern : jsstring)
| ClassRegExp (source : jsstring).

Inductive AllowedClasses : Type :=
| ClassesBool (b : bool)
| ClassesList (l : list ClassPattern).

(** [sanitizeHtml.Attributes] *)
Abbreviation Attributes := (gmap jsstring jsstring).

Definition Transformer : Type :=
  jsstring -> Attributes -> jsstring * Attributes.

(** The options object handed to sanitize-html; a field that a call leaves
    out is [None] (or empty for [transformTags]). *)
Module SanitizeOptions.
Record t : Type := {
  transformTags : list (jsstring * Transformer);
  allowedTags : list jsstring;
  allowedAttributes : gmap jsstring (list AllowedAttribute);
  allowedClasses : option (gmap jsstring AllowedClasses);
  allowProtocolRelative : option bool;
  lowerCaseAttributeNames : option bool
}.
End SanitizeOptions.

(** Renderer objects live in a store and are passed by reference. *)
Abbreviation ref := nat.

(** [RenderOptions].  An absent flag reads as [false], an absent list or
    object as the empty one, which is how [render] reads them
    ([opts.allowMath ?? false], [opts.allowedTags ?? []], the spread of
    [undefined]). *)
Module RenderOptions.
Record t : Type := {
  baseUrl : option jsstring;
  mediaBaseUrl : option jsstring;
  inline : bool;
  allowIframes : bool;
  allowMath : bool;
  disableHtmlSanitization : bool;
  renderer : option ref;
  allowedClasses : gmap jsstring AllowedClasses;
  allowedTags : list jsstring;
  allowedAttributes : gmap jsstring (list AllowedAttribute);
  breaks : bool
}.
End RenderOptions.

(** What [getOpts] returns, with the [tokenizer] that
    [stripSplitBySections] adds ([stripTokenizer] tells whether marked runs
    with [StripTokenizer]). *)
Module MarkedOptions.
Record t : Type := {
  baseUrl : option jsstring;
  breaks : bool;
  gfm : bool;
  mangle : bool;
  renderer : ref;
  async : bool;
  stripTokenizer : bool
}.
End MarkedOptions.

(** marked's tokens, with the fields that [stripTokens] reads. *)
Module Token.
#[warning="-register-all"]
Inductive t : Type :=
| space (raw : jsstring)
| code (lang : option jsstring) (text : jsstring)
| heading (depth : N) (tokens : list t)
| table (header : list (list t)) (rows : list (list (list t)))
| hr
| blockquote (tokens : list t)
| list_ (items : list t)
| list_item (tokens : list t)
| paragraph (tokens : list t)
| html (text : jsstring)
| text (raw : jsstring) (tokens : option (list t))
| def
| escape
| link (tokens : list t)
| image (title : option jsstring) (text : jsstring)
| strong (tokens : list t)
| em (tokens : list t)
| codespan (text : jsstring)
| br
| del (tokens : list t).
End Token.

(** [MarkdownSections] *)
Record MarkdownSections : Type := {
  header : jsstring;
  depth : N;
  content : jsstring
}.

(** marked's parser drives the renderer through callbacks.  A parse of a
    document is the script of the calls it makes on the four methods that
    [Renderer] overrides, each continuing with the fragment the method
    returned, up to the final HTML. *)
Inductive Parse : Type :=
| Done (html : jsstring)
| CallHeading (text : jsstring) (level : N) (raw : jsstring)
    (k : jsstring -> Parse)
| CallImage (src : jsstring) (title : option jsstring) (alt : jsstring)
    (k : jsstring -> Parse)
| CallCode (code : jsstring) (language : option jsstring)
    (k : jsstring -> Parse)
| CallLink (href : jsstring) (title : option jsstring) (text : jsstring)
    (k : jsstring -> Parse).

(** ** Collaborators

    The engines the module imports.  [Grammar] is the type of Prism's
    grammars; [Prism_languages] is the own-property lookup in
    [Prism.languages]; [URL_href u b] is [new URL(u, b).href], which throws
    on a malformed URL; [katex_renderToString] throws on a malformed formula;
    [slug_text] is github-slugger's normalisation of a heading text;
    [KATEX_CLASSES] comes from [style.ts].

    With them comes the realm the module runs in: [Object_prototype_has]
    tells the names of the properties that every plain object inherits from
    [Object.prototype] ([constructor], [toString], ...). *)
Class Collaborators : Type := {
  emojify : jsstring -> jsstring;
  toLocaleLowerCase : jsstring -> jsstring;
  katex_renderToString : jsstring -> bool -> Result jsstring;
  he_encode : jsstring -> jsstring;
  Grammar : Type;
  Prism_languages : jsstring -> option Grammar;
  Prism_highlight : jsstring -> Grammar -> jsstring -> jsstring;
  URL_href : jsstring -> jsstring -> Result jsstring;
  slug_text : jsstring -> jsstring;
  marked_parse : jsstring -> MarkedOptions.t -> Parse;
  marked_parseInline : jsstring -> MarkedOptions.t -> Parse;
  marked_lexer : jsstring -> MarkedOptions.t -> list Token.t;
  sanitizeHtml : jsstring -> SanitizeOptions.t -> jsstring;
  sanitizeHtml_defaults_allowedTags : list jsstring;
  sanitizeHtml_defaults_allowedAttributes :
    gmap jsstring (list AllowedAttribute);
  KATEX_CLASSES : list jsstring;
  Object_prototype_has : jsstring -> bool
}.

(** ** The slug registry *)

(** The class GitHubSlugger of the package github-slugger is not under src/.
    Its instance state is the [occurrences] object: a map from fragments to
    counters. *)
Module GitHubSlugger.

(** Modelled from the spec: the Slug Registry when it is created, with no
    fragment recorded. *)
Definition new : gmap jsstring N := empty.

(** The fragment tried for the count [n]: [originalSlug + "-" + n]. *)
Definition candidate (originalSlug : jsstring) (n : N) : jsstring :=
  originalSlug ++ js "-" ++ js (pretty n).

(** Modelled from the spec: the de-duplication of the Slug Registry (numeric
    suffix on repeat).  While [result] is a fragment already handed out,
    count one up under [originalSlug] and try the fragment of the new
    count. *)
Fixpoint slug_loop (fuel : nat) (occurrences : gmap jsstring N)
    (originalSlug result : jsstring)
    : option (jsstring * gmap jsstring N) :=
  match occurrences !! result with
  | None => Some (result, occurrences)
  | Some _ =>
      match fuel with
      | O => None
      | S fuel' =>
          let count := default 0 (occurrences !! originalSlug) + 1 in
          slug_loop fuel' (<[originalSlug := count]> occurrences)
            originalSlug (candidate originalSlug count)
      end
  end.

(** Modelled from the spec: [slug] of the Slug Registry, which maps a
    heading text to a fragment no other heading of the registry has: the
    normalised text, with a numeric suffix on repeat, recorded once handed
    out.  The search cannot need more rounds than there are recorded
    fragments plus one (lemma [slug_loop_finds]), which is the fuel it is
    given; the last branch is never taken. *)
Definition slug `{Collaborators} (occurrences : gmap jsstring N)
    (value : jsstring) : jsstring * gmap jsstring N :=
  let originalSlug := slug_text value in
  match slug_loop (S (size occurrences)) occurrences
          originalSlug originalSlug with
  | Some (result, occurrences') => (result, <[result := 0]> occurrences')
  | None => (originalSlug, occurrences)
  end.

End GitHubSlugger.

(** ** The class Renderer *)

Module Renderer.

(** The instance state: [#slugger] is held as its [occurrences] object. *)
Record t : Type := {
  allowMath : bool;
  baseUrl : option jsstring;
  slugger : gmap jsstring N
}.

Section Methods.
Context `{Collaborators}.

(** [constructor] *)
Definition new (options : RenderOptions.t) : t :=
  {| baseUrl := RenderOptions.baseUrl options;
     allowMath := RenderOptions.allowMath options;
     slugger := GitHubSlugger.new |}.

(** [heading]: the fragment, the slug it carries and the renderer with
    its registry updated. *)
Definition heading (this : t) (text : jsstring) (level : N)
    (raw : jsstring) : jsstring * jsstring * t :=
  let '(slug, occurrences) := GitHubSlugger.slug (slugger this) raw in
  (js "<h" ++ js (pretty level) ++ jsq " id='" ++ slug
     ++ jsq "'><a class='anchor' aria-hidden='true' tabindex='-1' href='#"
     ++ slug
     ++ jsq "'><svg class='octicon octicon-link' viewBox='0 0 16 16' width='16' height='16' aria-hidden='true'><path fill-rule='evenodd' d='M7.775 3.275a.75.75 0 001.06 1.06l1.25-1.25a2 2 0 112.83 2.83l-2.5 2.5a2 2 0 01-2.83 0 .75.75 0 00-1.06 1.06 3.5 3.5 0 004.95 0l2.5-2.5a3.5 3.5 0 00-4.95-4.95l-1.25 1.25zm-4.69 9.64a2 2 0 010-2.83l2.5-2.5a2 2 0 012.83 0 .75.75 0 001.06-1.06 3.5 3.5 0 00-4.95 0l-2.5 2.5a3.5 3.5 0 004.95 4.95l1.25-1.25a.75.75 0 00-1.06-1.06l-1.25 1.25a2 2 0 01-2.83 0z'></path></svg></a>"
     ++ text ++ js "</h" ++ js (pretty level) ++ js ">" ++ [NL],
   slug,
   {| allowMath := allowMath this; baseUrl := baseUrl this;
      slugger := occurrences |}).

(** [image] *)
Definition image (src : jsstring) (title : option jsstring)
    (alt : jsstring) : jsstring :=
  jsq "<img src='" ++ src ++ jsq "' alt='" ++ alt ++ jsq "' title='"
    ++ default [] title ++ jsq "' />".

(** The normalised language tag of a code block:
    [language?.split(",")?.[0].toLocaleLowerCase()]. *)
Definition code_language (language : option jsstring) : option jsstring :=
  (fun l => toLocaleLowerCase (split_comma_first l)) <$> language.

(** [code] *)
Definition code (this : t) (code : jsstring) (language : option jsstring)
    : Result jsstring :=
  let language := code_language language in
  if bool_decide (language = Some (js "math")) && allowMath this
  then katex_renderToString code true
  else
    let grammar :=
      match language with
      | Some l => if truthy (Some l) then Prism_languages l else None
      | None => None
      end in
    match grammar with
    | None =>
        Ok (jsq "<pre><code class='notranslate'>" ++ he_encode code
              ++ js "</code></pre>")
    | Some g =>
        let html := Prism_highlight code g (default [] language) in
        Ok (jsq "<div class='highlight highlight-source-"
              ++ default [] language ++ jsq " notranslate'><pre>" ++ html
              ++ js "</pre></div>")
    end.

(** [link] *)
Definition link (this : t) (href : jsstring) (title : option jsstring)
    (text : jsstring) : jsstring :=
  let titleAttr :=
    if truthy title
    then jsq " title='" ++ default [] title ++ jsq "'"
    else [] in
  if startsWith href (js "#")
  then jsq "<a href='" ++ href ++ jsq "'" ++ titleAttr ++ js ">" ++ text
         ++ js "</a>"
  else
    let href :=
      if truthy (baseUrl this)
      then
        match URL_href href (default [] (baseUrl this)) with
        | Ok resolved => resolved
        | Throw _ => href
        end
      else href in
    jsq "<a href='" ++ href ++ jsq "'" ++ titleAttr
      ++ jsq " rel='noopener noreferrer'>" ++ text ++ js "</a>".

(** marked at work on a renderer: every callback of the script is
    answered by the method; an exception ends the parse.  The renderer
    comes back as the calls left it. *)
Fixpoint run (p : Parse) (this : t) : Result jsstring * t :=
  match p with
  | Done html => (Ok html, this)
  | CallHeading text level raw k =>
      let '(fragment, _, this') := heading this text level raw in
      run (k fragment) this'
  | CallImage src title alt k => run (k (image src title alt)) this
  | CallCode c language k =>
      match code this c language with
      | Ok fragment => run (k fragment) this
      | Throw e => (Throw e, this)
      end
  | CallLink href title text k => run (k (link this href title text)) this
  end.


End Methods.
End Renderer.

Abbreviation Store := (list Renderer.t).

(** ** Rendering to sanitized HTML *)

(** An object literal [{ ...base, k1: v1, k2: v2, ... }]: the properties are
    set one after the other on a copy of [base]. *)
Definition object_literal {V : Type} (base : gmap jsstring V)
    (properties : list (string * V)) : gmap jsstring V :=
  foldl (fun o p => <[js p.1 := p.2]> o) base properties.

Definition names (l : list string) : list AllowedAttribute :=
  (fun s => AttrName (js s)) <$> l.

Definition classes (l : list jsstring) : AllowedClasses :=
  ClassesList (ClassGlob <$> l).

Section Render.
Context `{Collaborators}.

(** [mathify]: a formula that KaTeX refuses stays as it was written (the
    warning on the console is not modelled). *)
Definition mathify (markdown : jsstring) : jsstring :=
  let markdown :=
    replace BLOCK_MATH_REGEXP
      (fun matched p1 =>
         match katex_renderToString (trim p1) true with
         | Ok rendered => rendered
         | Throw _ => matched
         end) markdown in
  replace INLINE_MATH_REGEXP
    (fun matched p1 =>
       match katex_renderToString p1 false with
       | Ok rendered => js " " ++ rendered
       | Throw _ => matched
       end) markdown.

(** [getOpts]: the renderer of the caller when there is one, a new
    [Renderer] otherwise. *)
Definition getOpts (opts : RenderOptions.t) (store : Store)
    : MarkedOptions.t * Store :=
  let '(renderer, store) :=
    match RenderOptions.renderer opts with
    | Some r => (r, store)
    | None => (length store, store ++ [Renderer.new opts])
    end in
  ({| MarkedOptions.baseUrl := RenderOptions.baseUrl opts;
      MarkedOptions.breaks := RenderOptions.breaks opts;
      MarkedOptions.gfm := true;
      MarkedOptions.mangle := false;
      MarkedOptions.renderer := renderer;
      MarkedOptions.async := false;
      MarkedOptions.stripTokenizer := false |}, store).

(** [opts.mediaBaseUrl ??= opts.baseUrl] *)
Definition fill_mediaBaseUrl (opts : RenderOptions.t) : RenderOptions.t :=
  {| RenderOptions.baseUrl := RenderOptions.baseUrl opts;
     RenderOptions.mediaBaseUrl :=
       match RenderOptions.mediaBaseUrl opts with
       | Some m => Some m
       | None => RenderOptions.baseUrl opts
       end;
     RenderOptions.inline := RenderOptions.inline opts;
     RenderOptions.allowIframes := RenderOptions.allowIframes opts;
     RenderOptions.allowMath := RenderOptions.allowMath opts;
     RenderOptions.disableHtmlSanitization :=
       RenderOptions.disableHtmlSanitization opts;
     RenderOptions.renderer := RenderOptions.renderer opts;
     RenderOptions.allowedClasses := RenderOptions.allowedClasses opts;
     RenderOptions.allowedTags := RenderOptions.allowedTags opts;
     RenderOptions.allowedAttributes := RenderOptions.allowedAttributes opts;
     RenderOptions.breaks := RenderOptions.breaks opts |}.

(** [defaultAllowedTags], once the options have had their say. *)
Definition defaultAllowedTags (opts : RenderOptions.t) : list jsstring :=
  let defaultAllowedTags :=
    sanitizeHtml_defaults_allowedTags
      ++ (js <$> ["img"; "video"; "svg"; "path"; "circle"; "figure";
                  "figcaption"; "del"; "details"; "summary"; "input"]) in
  let defaultAllowedTags :=
    if RenderOptions.allowIframes opts
    then defaultAllowedTags ++ [js "iframe"]
    else defaultAllowedTags in
  if RenderOptions.allowMath opts
  then defaultAllowedTags
         ++ (js <$> ["math"; "maction"; "annotation"; "annotation-xml";
                     "menclose"; "merror"; "mfenced"; "mfrac"; "mi";
                     "mmultiscripts"; "mn"; "mo"; "mover"; "mpadded";
                     "mphantom"; "mprescripts"; "mroot"; "mrow"; "ms";
                     "semantics"; "mspace"; "msqrt"; "mstyle"; "msub";
                     "msup"; "msubsup"; "mtable"; "mtd"; "mtext";
                     "mtr"])
  else defaultAllowedTags.

(** [transformMedia] *)
Definition transformMedia (opts : RenderOptions.t) : Transformer :=
  fun tagName attribs =>
    if truthy (RenderOptions.mediaBaseUrl opts)
       && truthy (attribs !! js "src")
    then
      match URL_href (default [] (attribs !! js "src"))
              (default [] (RenderOptions.mediaBaseUrl opts)) with
      | Ok resolved => (tagName, <[js "src" := resolved]> attribs)
      | Throw _ => (tagName, delete (js "src") attribs)
      end
    else (tagName, attribs).

Definition defaultAllowedClasses (opts : RenderOptions.t)
    : gmap jsstring AllowedClasses :=
  object_literal empty
    [("div", classes (js <$> ["highlight"; "highlight-source-*";
                              "notranslate"; "markdown-alert";
                              "markdown-alert-*"]));
     ("span", classes
        ((js <$> ["token"; "keyword"; "operator"; "number"; "boolean";
                  "function"; "string"; "comment"; "class-name"; "regex";
                  "regex-delimiter"; "tag"; "attr-name"; "punctuation";
                  "script-punctuation"; "script"; "plain-text"; "property";
                  "prefix"; "line"; "deleted"; "inserted"])
           ++ (if RenderOptions.allowMath opts then KATEX_CLASSES else [])));
     ("a", classes [js "anchor"]);
     ("p", classes [js "markdown-alert-title"]);
     ("svg", classes (js <$> ["octicon"; "octicon-alert"; "octicon-link"]));
     ("h2", classes [js "sr-only"]);
     ("section", classes [js "footnotes"])].

Definition defaultAllowedAttributes (opts : RenderOptions.t)
    : gmap jsstring (list AllowedAttribute) :=
  object_literal sanitizeHtml_defaults_allowedAttributes
    [("img", names ["src"; "alt"; "height"; "width"; "align"; "title"]);
     ("video", names ["src"; "alt"; "height"; "width"; "autoplay"; "muted";
                      "loop"; "playsinline"; "poster"; "controls"; "title"]);
     ("a", names ["id"; "aria-hidden"; "href"; "tabindex"; "rel"; "target";
                  "title"; "data-footnote-ref"; "data-footnote-backref";
                  "aria-label"; "aria-describedby"]);
     ("svg", names ["viewBox"; "width"; "height"; "aria-hidden";
                    "background"]);
     ("path", names ["fill-rule"; "d"]);
     ("circle", names ["cx"; "cy"; "r"; "stroke"; "stroke-width"; "fill";
                       "alpha"]);
     ("span", if RenderOptions.allowMath opts
              then names ["aria-hidden"; "style"] else []);
     ("h1", names ["id"]);
     ("h2", names ["id"]);
     ("h3", names ["id"]);
     ("h4", names ["id"]);
     ("h5", names ["id"]);
     ("h6", names ["id"]);
     ("li", names ["id"]);
     ("td", names ["colspan"; "rowspan"; "align"; "width"]);
     ("iframe", names ["src"; "width"; "height"]);
     ("math", names ["xmlns"]);
     ("annotation", names ["encoding"]);
     ("details", names ["open"]);
     ("section", names ["data-footnotes"]);
     ("input", names ["checked"; "disabled"]
                 ++ [AttrValues (js "type") [js "checkbox"]])].

(** One round of the loop of [mergeAttributes]:
    [merged[tag] = [...(merged[tag] || []), ...customs[tag]]].  The read
    [merged[tag]] goes through the prototype chain: for a tag that [merged]
    does not have as a property of its own and that names a property of
    [Object.prototype], it gives the inherited value, a function (an object
    for [__proto__]), which is truthy and cannot be spread: a TypeError. *)
Definition merge_tag (tag : jsstring) (custom : list AllowedAttribute)
    (merged : Result (gmap jsstring (list AllowedAttribute)))
    : Result (gmap jsstring (list AllowedAttribute)) :=
  match merged with
  | Throw e => Throw e
  | Ok merged =>
      match merged !! tag with
      | Some own => Ok (<[tag := own ++ custom]> merged)
      | None =>
          if Object_prototype_has tag
          then Throw (js "TypeError")
          else Ok (<[tag := [] ++ custom]> merged)
      end
  end.

(** [mergeAttributes]: the loop runs once for each key of [customs], on a
    copy of [defaults]; the keys are distinct, so the order in which they
    come does not matter. *)
Definition mergeAttributes
    (defaults customs : gmap jsstring (list AllowedAttribute))
    : Result (gmap jsstring (list AllowedAttribute)) :=
  map_fold merge_tag (Ok defaults) customs.

(** The options object of the call of sanitize-html in [render], with
    [merged] what the call of [mergeAttributes] has returned. *)
Definition sanitize_options (opts : RenderOptions.t)
    (merged : gmap jsstring (list AllowedAttribute)) : SanitizeOptions.t :=
  {| SanitizeOptions.transformTags :=
       [(js "img", transformMedia opts); (js "video", transformMedia opts)];
     SanitizeOptions.allowedTags :=
       defaultAllowedTags opts ++ RenderOptions.allowedTags opts;
     SanitizeOptions.allowedAttributes := merged;
     SanitizeOptions.allowedClasses :=
       Some (union (RenderOptions.allowedClasses opts)
               (defaultAllowedClasses opts));
     SanitizeOptions.allowProtocolRelative := Some false;
     SanitizeOptions.lowerCaseAttributeNames := Some false |}.

(** The first half of [render], up to [const html = ...]: what marked makes
    of the document with the renderer.  The renderer in use is read from the
    store and written back as the parse left it.  A reference always denotes
    an object: a store without the caller's renderer is no input of the
    program, and the model answers it with an exception. *)
Definition render_html (markdown : jsstring) (opts : RenderOptions.t)
    (store : Store) : Result jsstring * Store :=
  let opts := fill_mediaBaseUrl opts in
  let markdown := emojify markdown in
  let markdown :=
    if RenderOptions.allowMath opts then mathify markdown else markdown in
  let '(marked_opts, store) := getOpts opts store in
  let parse :=
    if RenderOptions.inline opts
    then marked_parseInline markdown marked_opts
    else marked_parse markdown marked_opts in
  match store !! MarkedOptions.renderer marked_opts with
  | None => (Throw (js "TypeError"), store)
  | Some this =>
      let '(html, this) := Renderer.run parse this in
      (html, <[MarkedOptions.renderer marked_opts := this]> store)
  end.

(** [render].  The options object is the one of the caller: the first
    statement writes [mediaBaseUrl] into it, and the object comes back as
    the call left it, beside what the call returns or throws and the store
    of the renderers.  An exception of [mergeAttributes] leaves [render]
    as it is thrown. *)
Definition render (markdown : jsstring) (opts : RenderOptions.t)
    (store : Store) : Result jsstring * RenderOptions.t * Store :=
  let '(html, store) := render_html markdown opts store in
  let opts := fill_mediaBaseUrl opts in
  match html with
  | Throw e => (Throw e, opts, store)
  | Ok html =>
      if RenderOptions.disableHtmlSanitization opts
      then (Ok html, opts, store)
      else
        match mergeAttributes (defaultAllowedAttributes opts)
                (RenderOptions.allowedAttributes opts) with
        | Throw e => (Throw e, opts, store)
        | Ok merged =>
            (Ok (sanitizeHtml html (sanitize_options opts merged)), opts,
             store)
        end
  end.


End Render.

(** ** Reduction to plain-text sections *)

(** [s.trim().replace(/\n{3,}/g, "\n")] *)
Definition normalize (s : jsstring) : jsstring := collapse_newlines (trim s).

(** What a heading does to the section it closes. *)
Definition close_section (s : MarkdownSections) : MarkdownSections :=
  {| header := normalize (header s);
     depth := depth s;
     content := normalize (content s) |}.

Definition append_field (h : bool) (s : MarkdownSections) (x : jsstring)
    : MarkdownSections :=
  if h
  then {| header := header s ++ x; depth := depth s; content := content s |}
  else {| header := header s; depth := depth s; content := content s ++ x |}.

(** [sections[index][header ? "header" : "content"] += x].  Reading a field
    of [sections[index]] when the array has no such element is a TypeError:
    [None]. *)
Definition append (h : bool) (x : jsstring) (index : nat)
    (sections : list MarkdownSections) : option (list MarkdownSections) :=
  s ← sections !! index;
  Some (<[index := append_field h s x]> sections).

(** The first statement of the loop body of [stripTokens] for a heading:
    normalise [sections[index]], push the new section, move [index]. *)
Definition open_section (d : N) (index : nat)
    (sections : list MarkdownSections)
    : option (nat * list MarkdownSections) :=
  s ← sections !! index;
  Some (S index,
        <[index := close_section s]> sections
          ++ [{| header := []; depth := d; content := [] |}]).

(** Sections are only added, behind the ones that are there: the depths of
    [sections] open the depths of [sections']. *)
Definition grows (sections sections' : list MarkdownSections) : Prop :=
  (depth <$> sections) `prefix_of` (depth <$> sections').

Section Strip.
Context `{Collaborators}.

(** [sanitizeHtml(token.text, { allowedTags: [], allowedAttributes: {} })] *)
Definition strip_html (text : jsstring) : jsstring :=
  sanitizeHtml text
    {| SanitizeOptions.transformTags := [];
       SanitizeOptions.allowedTags := [];
       SanitizeOptions.allowedAttributes := empty;
       SanitizeOptions.allowedClasses := None;
       SanitizeOptions.allowProtocolRelative := None;
       SanitizeOptions.lowerCaseAttributeNames := None |}.

(** One round of the loop of [stripTokens], on [token], with the [index]
    of the running call and the shared [sections] array.  The calls of
    [stripTokens] inside are the local [stripTokens]: each starts with its
    own [index = sections.length - 1] and hands back the array only. *)
Fixpoint stripToken (header : bool) (token : Token.t) (index : nat)
    (sections : list MarkdownSections) {struct token}
    : option (nat * list MarkdownSections) :=
  let stripTokens :=
    fix stripTokens (header : bool) (tokens : list Token.t) (index : nat)
        (sections : list MarkdownSections) {struct tokens}
        : option (list MarkdownSections) :=
      match tokens with
      | [] => Some sections
      | token :: tokens =>
          '(index, sections) ← stripToken header token index sections;
          stripTokens header tokens index sections
      end in
  let cells :=
    fix cells (header : bool) (index : nat) (row : list (list Token.t))
        (sections : list MarkdownSections) {struct row}
        : option (list MarkdownSections) :=
      match row with
      | [] => Some sections
      | cell :: row =>
          sections ← stripTokens header cell
                       (length sections - 1)%nat sections;
          sections ← append header (js " ") index sections;
          cells header index row sections
      end in
  let rows :=
    fix rows (header : bool) (index : nat) (l : list (list (list Token.t)))
        (sections : list MarkdownSections) {struct l}
        : option (list MarkdownSections) :=
      match l with
      | [] => Some sections
      | row :: l =>
          sections ← cells header index row sections;
          sections ← append header [NL] index sections;
          rows header index l sections
      end in
  let children (inner : bool) (tokens : list Token.t) index sections :=
    sections ← stripTokens inner tokens (length sections - 1)%nat sections;
    Some (index, sections) in
  match token with
  | Token.space raw =>
      sections ← append header raw index sections; Some (index, sections)
  | Token.code lang text =>
      if bool_decide (lang = Some (js "math"))
      then Some (index, sections)
      else sections ← append header text index sections;
           Some (index, sections)
  | Token.heading d tokens =>
      '(index, sections) ← open_section d index sections;
      children true tokens index sections
  | Token.table head body =>
      sections ← cells header index head sections;
      sections ← append header [NL] index sections;
      sections ← rows header index body sections;
      Some (index, sections)
  | Token.hr => Some (index, sections)
  | Token.blockquote tokens => children false tokens index sections
  | Token.list_ items =>
      sections ← stripTokens header items (length sections - 1)%nat sections;
      Some (index, sections)
  | Token.list_item tokens =>
      '(index, sections) ← children false tokens index sections;
      sections ← append header [NL] index sections;
      Some (index, sections)
  | Token.paragraph tokens => children false tokens index sections
  | Token.html text =>
      sections ← append header (trim (strip_html text) ++ [NL; NL])
                   index sections;
      Some (index, sections)
  | Token.text raw (Some tokens) => children false tokens index sections
  | Token.text raw None =>
      sections ← append header raw index sections; Some (index, sections)
  | Token.def => Some (index, sections)
  | Token.escape => Some (index, sections)
  | Token.link tokens => children false tokens index sections
  | Token.image title text =>
      sections ← append header (if truthy title then default [] title
                                else text) index sections;
      Some (index, sections)
  | Token.strong tokens => children false tokens index sections
  | Token.em tokens => children false tokens index sections
  | Token.codespan text =>
      sections ← append header text index sections; Some (index, sections)
  | Token.br => Some (index, sections)
  | Token.del tokens => children false tokens index sections
  end.

End Strip.

Section StripSections.
Context `{Collaborators}.

(** The loop of [stripTokens] over [tokens]. *)
Fixpoint stripTokens_from (header : bool) (tokens : list Token.t)
    (index : nat) (sections : list MarkdownSections)
    : option (list MarkdownSections) :=
  match tokens with
  | [] => Some sections
  | token :: tokens =>
      '(index, sections) ← stripToken header token index sections;
      stripTokens_from header tokens index sections
  end.

(** A call of [stripTokens] on the tokens below a token: it starts at the
    last section and leaves the [index] of the caller alone. *)
Definition stripChildren (inner : bool) (tokens : list Token.t)
    (index : nat) (sections : list MarkdownSections)
    : option (nat * list MarkdownSections) :=
  sections ← stripTokens_from inner tokens (length sections - 1)%nat sections;
  Some (index, sections).

(** The loops of the [table] case: over the cells of a row, and over the
    rows. *)
Fixpoint stripCells (header : bool) (index : nat)
    (row : list (list Token.t)) (sections : list MarkdownSections)
    : option (list MarkdownSections) :=
  match row with
  | [] => Some sections
  | cell :: row =>
      sections ← stripTokens_from header cell
                   (length sections - 1)%nat sections;
      sections ← append header (js " ") index sections;
      stripCells header index row sections
  end.

Fixpoint stripRows (header : bool) (index : nat)
    (l : list (list (list Token.t))) (sections : list MarkdownSections)
    : option (list MarkdownSections) :=
  match l with
  | [] => Some sections
  | row :: l =>
      sections ← stripCells header index row sections;
      sections ← append header [NL] index sections;
      stripRows header index l sections
  end.

(** [stripTokens]: the array comes back as the walk left it; [None] is a
    TypeError. *)
Definition stripTokens (tokens : list Token.t)
    (sections : list MarkdownSections) (header : bool)
    : option (list MarkdownSections) :=
  stripTokens_from header tokens (length sections - 1)%nat sections.

(** The source text that [stripSplitBySections] hands to the lexer. *)
Definition strip_source (markdown : jsstring) : jsstring :=
  replace INLINE_MATH_REGEXP (fun _ _ => [])
    (replace BLOCK_MATH_REGEXP (fun _ _ => []) (emojify markdown)).

(** [{ ...getOpts(opts), tokenizer: new StripTokenizer() }].  The lexer
    calls no method of the renderer: the one that [getOpts] may create is
    not kept. *)
Definition lexer_options (opts : RenderOptions.t) (store : Store)
    : MarkedOptions.t :=
  let o := (getOpts opts store).1 in
  {| MarkedOptions.baseUrl := MarkedOptions.baseUrl o;
     MarkedOptions.breaks := MarkedOptions.breaks o;
     MarkedOptions.gfm := MarkedOptions.gfm o;
     MarkedOptions.mangle := MarkedOptions.mangle o;
     MarkedOptions.renderer := MarkedOptions.renderer o;
     MarkedOptions.async := MarkedOptions.async o;
     MarkedOptions.stripTokenizer := true |}.

Definition root_section : MarkdownSections :=
  {| header := []; depth := 0; content := [] |}.

(** [stripSplitBySections] *)
Definition stripSplitBySections (markdown : jsstring)
    (opts : RenderOptions.t) (store : Store)
    : option (list MarkdownSections) :=
  let markdown := strip_source markdown in
  let tokens := marked_lexer markdown (lexer_options opts store) in
  stripTokens tokens [root_section] false.

(** The text that [strip] builds from the sections. *)
Definition assemble (sections : list MarkdownSections) : jsstring :=
  collapse_newlines
    (trim (join [NL; NL]
             ((fun section => header section ++ [NL; NL] ++ content section)
                <$> sections)))
    ++ [NL].

(** [strip] *)
Definition strip (markdown : jsstring) (opts : RenderOptions.t)
    (store : Store) : option jsstring :=
  sections ← stripSplitBySections markdown opts store;
  Some (assemble sections).

(** On an array that has the section [index], a round of the loop goes
    through, leaves an [index] that the array has, and only adds
    sections. *)
Definition goes_through (token : Token.t) : Prop :=
  forall h i s,
    (i < length s)%nat ->
    exists i' s',
      stripToken h token i s = Some (i', s')
      /\ (i' < length s')%nat /\ grows s s'.

End StripSections.

(** The options with [allowMath] set to [b]. *)
Definition with_allowMath (b : bool) (opts : RenderOptions.t)
    : RenderOptions.t :=
  {| RenderOptions.baseUrl := RenderOptions.baseUrl opts;
     RenderOptions.mediaBaseUrl := RenderOptions.mediaBaseUrl opts;
     RenderOptions.inline := RenderOptions.inline opts;
     RenderOptions.allowIframes := RenderOptions.allowIframes opts;
     RenderOptions.allowMath := b;
     RenderOptions.disableHtmlSanitization :=
       RenderOptions.disableHtmlSanitization opts;
     RenderOptions.renderer := RenderOptions.renderer opts;
     RenderOptions.allowedClasses := RenderOptions.allowedClasses opts;
     RenderOptions.allowedTags := RenderOptions.allowedTags opts;
     RenderOptions.allowedAttributes := RenderOptions.allowedAttributes opts;
     RenderOptions.breaks := RenderOptions.breaks opts |}.

(** ** Claims as the specification words them

    The allow-list of classes as the specification describes it: the union,
    tag by tag, of the defaults with the caller's additions. *)
Definition union_of_classes (defaults custom : option AllowedClasses)
    : option AllowedClasses :=
  match defaults, custom with
  | Some (ClassesList d), Some (ClassesList c) => Some (ClassesList (d ++ c))
  | Some d, None => Some d
  | _, Some c => Some c
  | None, None => None
  end.

(** What the module relies on from sanitize-html, for a reading [tags_of] of
    the tag names in an HTML string and a reading [outside o s] of "[s]
    holds a tag, an attribute or a class outside the allow-lists of [o]":
    the output of the sanitizer holds nothing outside the allow-lists it was
    given, and a tag that is not in [allowedTags] is outside. *)
Definition sanitizer_contract `{Collaborators}
    (tags_of : jsstring -> list jsstring)
    (outside : SanitizeOptions.t -> jsstring -> Prop) : Prop :=
  (forall html o, ~ outside o (sanitizeHtml html o))
  /\ (forall o s t,
        t ∈ tags_of s -> t ∉ SanitizeOptions.allowedTags o -> outside o s).




(** The final assembly of the plain text as the specification describes
    it.  First, every section as its header, a blank line and its content,
    in order, with a blank line between two sections. *)
Fixpoint sections_text (sections : list MarkdownSections) : jsstring :=
  match sections with
  | [] => []
  | section :: rest =>
      header section ++ [NL; NL] ++ content section
        ++ match rest with
           | [] => []
           | _ :: _ => [NL; NL] ++ sections_text rest
           end
  end.

(** Then the whole trimmed: [t] is [s] without the white space at its two
    ends. *)
Definition trimmed (s t : jsstring) : Prop :=
  exists l r,
    s = l ++ t ++ r
    /\ Forall (fun c => isWhiteSpace c = true) l
    /\ Forall (fun c => isWhiteSpace c = true) r
    /\ (forall c, head t = Some c -> isWhiteSpace c = false)
    /\ (forall c, last t = Some c -> isWhiteSpace c = false).

(** Then every run of three or more line feeds collapsed to one: a run of
    [run] line feeds is written out when it ends, as one line feed when it
    has three or more. *)
Definition run_text (run : nat) : jsstring :=
  if (3 <=? run)%nat then [NL] else replicate run NL.

Fixpoint runs_collapsed (run : nat) (s : jsstring) : jsstring :=
  match s with
  | [] => run_text run
  | c :: s' =>
      if c =? NL then runs_collapsed (S run) s'
      else run_text run ++ c :: runs_collapsed O s'
  end.

(** The deletion of the math segments as the specification describes it,
    for a pattern [m]: in a scan from the left, every match is taken out
    and every other code unit is kept; [deleted m s out] says that [out] is
    what is left of [s]. *)
Inductive deleted (m : Matcher) : jsstring -> jsstring -> Prop :=
| deleted_end : deleted m [] []
| deleted_match s matched p1 rest out :
    m s = Some (matched, p1) -> matched <> [] -> s = matched ++ rest ->
    deleted m rest out -> deleted m s out
| deleted_keep c s out :
    m (c :: s) = None -> deleted m s out -> deleted m (c :: s) (c :: out).

(** A string holds a run of three line feeds. *)
Fixpoint has_newline_run3 (s : jsstring) : bool :=
  match s with
  | a :: ((b :: c :: _) as s') =>
      ((a =? NL) && (b =? NL) && (c =? NL)) || has_newline_run3 s'
  | _ => false
  end.

(** The tokens directly below a token. *)
Definition subtokens (token : Token.t) : list Token.t :=
  match token with
  | Token.heading _ tokens | Token.blockquote tokens | Token.list_ tokens
  | Token.list_item tokens | Token.paragraph tokens
  | Token.text _ (Some tokens) | Token.link tokens | Token.strong tokens
  | Token.em tokens | Token.del tokens => tokens
  | Token.table head body => concat head ++ concat (concat body)
  | _ => []
  end.

(** A token that only recurses into the tokens below it. *)
Definition recurses_only (token : Token.t) : option (list Token.t) :=
  match token with
  | Token.blockquote tokens | Token.paragraph tokens
  | Token.text _ (Some tokens) | Token.link tokens | Token.strong tokens
  | Token.em tokens | Token.del tokens => Some tokens
  | _ => None
  end.

(** Induction on tokens, with the property at hand for every token below. *)
Fixpoint Token_subtokens_ind (P : Token.t -> Prop)
    (step : forall token, Forall P (subtokens token) -> P token)
    (token : Token.t) {struct token} : P token :=
  let all :=
    fix all (l : list Token.t) : Forall P l :=
      match l with
      | [] => Forall_nil_2 P
      | t :: l => Forall_cons_2 P t l (Token_subtokens_ind P step t) (all l)
      end in
  let cells :=
    fix cells (l : list (list Token.t)) : Forall P (concat l) :=
      match l with
      | [] => Forall_nil_2 P
      | c :: l => Forall_app_2 P c (concat l) (all c) (cells l)
      end in
  let rows :=
    fix rows (l : list (list (list Token.t))) : Forall P (concat (concat l)) :=
      match l with
      | [] => Forall_nil_2 P
      | r :: l =>
          eq_ind_r (Forall P)
            (Forall_app_2 P (concat r) (concat (concat l)) (cells r) (rows l))
            (concat_app r (concat l))
      end in
  step token
    match token return Forall P (subtokens token) with
    | Token.heading _ tokens | Token.blockquote tokens | Token.list_ tokens
    | Token.list_item tokens | Token.paragraph tokens
    | Token.text _ (Some tokens) | Token.link tokens | Token.strong tokens
    | Token.em tokens | Token.del tokens => all tokens
    | Token.table head body =>
        Forall_app_2 P (concat head) (concat (concat body))
          (cells head) (rows body)
    | _ => Forall_nil_2 P
    end.

(** The length of the run of line feeds that opens a string. *)
Definition lead (s : jsstring) : nat := length (newline_run s).

(** [needle] occurs in [s]. *)
Fixpoint includes (s needle : jsstring) : bool :=
  startsWith s needle
  || match s with
     | [] => false
     | _ :: s' => includes s' needle
     end.

(** ** Stand-ins for the collaborators

    Small engines with which the development is run on concrete inputs.  On
    the inputs used below they answer as the real ones do. *)
Module Standin.

Fixpoint take_until (stop : N) (s : jsstring) : jsstring :=
  match s with
  | [] => []
  | c :: s' => if c =? stop then [] else c :: take_until stop s'
  end.

Fixpoint take_name (s : jsstring) : jsstring :=
  match s with
  | [] => []
  | c :: s' =>
      if ((97 <=? c) && (c <=? 122)) || ((48 <=? c) && (c <=? 57))
         || (c =? 45)
      then c :: take_name s' else []
  end.

Definition lower (c : N) : N :=
  if (65 <=? c) && (c <=? 90) then c + 32 else c.

Definition encode (s : jsstring) : jsstring :=
  s ≫= (fun c => if c =? 60 then js "&#x3C;"
                 else if c =? 62 then js "&#x3E;"
                 else if c =? 38 then js "&#x26;" else [c]).

(** KaTeX refuses a formula that starts with an unknown command. *)
Definition katex (formula : jsstring) (displayMode : bool)
    : Result jsstring :=
  if startsWith formula (92 :: js "invalidcmd")
  then Throw (js "ParseError")
  else Ok (jsq "<span class='katex'>" ++ formula ++ js "</span>").

(** [URL]: an unterminated IPv6 host is malformed; an absolute URL is
    kept; anything else is appended to the base. *)
Definition resolve (url base : jsstring) : Result jsstring :=
  if startsWith url (js "http://[") then Throw (js "TypeError")
  else if startsWith url (js "http://") || startsWith url (js "https://")
  then Ok url
  else if startsWith url (js "/") then Ok (base ++ drop 1 url)
  else Ok (base ++ url).

Definition slugify (value : jsstring) : jsstring :=
  (fun c => if c =? 32 then 45 else lower c) <$> value.

Fixpoint lines (line s : jsstring) : list jsstring :=
  match s with
  | [] => [line]
  | c :: s' => if c =? NL then line :: lines [] s' else lines (line ++ [c]) s'
  end.

(** [[text](href)] *)
Definition link_of (s : jsstring) : option (jsstring * jsstring) :=
  match s with
  | 91 :: s =>
      let text := take_until 93 s in
      match drop (length text) s with
      | 93 :: 40 :: s =>
          let href := take_until 41 s in
          match drop (length href) s with
          | [41] => Some (text, href)
          | _ => None
          end
      | _ => None
      end
  | _ => None
  end.

(** A document of lines: [# text] is a heading, [[text](href)] a paragraph
    with one link, a line that opens with [<] is HTML and passes as it
    is, any other line is a paragraph. *)
Fixpoint parse_lines (l : list jsstring) (html : jsstring) : Parse :=
  match l with
  | [] => Done html
  | line :: l =>
      if startsWith line (js "# ")
      then CallHeading (drop 2 line) 1 (drop 2 line)
             (fun fragment => parse_lines l (html ++ fragment))
      else
        match link_of line with
        | Some (text, href) =>
            CallLink href None text
              (fun fragment =>
                 parse_lines l
                   (html ++ js "<p>" ++ fragment ++ js "</p>" ++ [NL]))
        | None =>
            if startsWith line (js "<")
            then parse_lines l (html ++ line)
            else parse_lines l
                   (html ++ js "<p>" ++ line ++ js "</p>" ++ [NL])
        end
  end.

Definition parse (markdown : jsstring) (o : MarkedOptions.t)
    : Parse :=
  parse_lines (lines [] markdown) [].

Definition lexer (markdown : jsstring) (o : MarkedOptions.t)
    : list Token.t :=
  (fun line =>
     if startsWith line (js "<") then Token.html line
     else Token.paragraph [Token.text line None])
    <$> lines [] markdown.

(** The names of the opening tags of an HTML string. *)
Fixpoint tags_of (s : jsstring) : list jsstring :=
  match s with
  | [] => []
  | c :: s' =>
      if (c =? 60) && negb (bool_decide (take_name s' = []))
      then take_name s' :: tags_of s'
      else tags_of s'
  end.

(** The text of an HTML string, every tag taken out. *)
Fixpoint drop_tags (inside : bool) (s : jsstring) : jsstring :=
  match s with
  | [] => []
  | c :: s' =>
      if c =? 60 then drop_tags true s'
      else if inside then drop_tags (negb (c =? 62)) s'
      else c :: drop_tags false s'
  end.

(** An HTML string without the [href] and the [src] attributes whose value
    opens with [//]: [skip] code units of the attribute are still to be
    dropped, then its value up to the closing quote. *)
Fixpoint drop_protocol_relative (skip : nat) (value : bool) (s : jsstring)
    : jsstring :=
  match s with
  | [] => []
  | c :: s' =>
      match skip with
      | S k => drop_protocol_relative k value s'
      | O =>
          if value
          then drop_protocol_relative O (negb (c =? 34)) s'
          else if startsWith s (jsq " href='//")
          then drop_protocol_relative 6 true s'
          else if startsWith s (jsq " src='//")
          then drop_protocol_relative 5 true s'
          else c :: drop_protocol_relative O false s'
      end
  end.


(** [allowProtocolRelative: false] *)
Definition refuses_relative (o : SanitizeOptions.t) : bool :=
  match SanitizeOptions.allowProtocolRelative o with
  | Some false => true
  | _ => false
  end.

(** A sanitizer that, told to refuse protocol-relative URLs, takes out the
    [href] and [src] attributes that hold one; it lets the string pass when
    all its tags are allowed and no refused URL is left, and keeps the
    text only, without its quotes, otherwise. *)
Definition sanitize (html : jsstring) (o : SanitizeOptions.t)
    : jsstring :=
  let html :=
    if refuses_relative o then drop_protocol_relative O false html
    else html in
  if forallb (fun t => bool_decide (t ∈ SanitizeOptions.allowedTags o))
       (tags_of html)
     && negb (refuses_relative o && includes html (jsq "='//"))
  then html
  else List.filter (fun c => negb (c =? 34)) (drop_tags false html).

(** The properties that a plain object inherits from [Object.prototype]. *)
Definition object_prototype_has (name : jsstring) : bool :=
  bool_decide
    (name ∈ js <$> ["constructor"; "hasOwnProperty"; "isPrototypeOf";
                    "propertyIsEnumerable"; "toLocaleString"; "toString";
                    "valueOf"; "__defineGetter__"; "__defineSetter__";
                    "__lookupGetter__"; "__lookupSetter__"]).

(** The reading of "outside the allow-lists" that goes with [tags_of]. *)
Definition outside (o : SanitizeOptions.t) (s : jsstring) : Prop :=
  exists t, t ∈ tags_of s /\ t ∉ SanitizeOptions.allowedTags o.

#[local] Instance collaborators : Collaborators := {|
  emojify := id;
  toLocaleLowerCase := fmap lower;
  katex_renderToString := katex;
  he_encode := encode;
  Grammar := unit;
  Prism_languages := fun l =>
    if bool_decide (l = js "ts") then Some tt else None;
  Prism_highlight := fun c _ _ => encode c;
  URL_href := resolve;
  slug_text := slugify;
  marked_parse := parse;
  marked_parseInline := parse;
  marked_lexer := lexer;
  sanitizeHtml := sanitize;
  sanitizeHtml_defaults_allowedTags :=
    js <$> ["address"; "article"; "aside"; "footer"; "header"; "h1"; "h2";
            "h3"; "h4"; "h5"; "h6"; "hgroup"; "main"; "nav"; "section";
            "blockquote"; "dd"; "div"; "dl"; "dt"; "figcaption"; "figure";
            "hr"; "li"; "main"; "ol"; "p"; "pre"; "ul"; "a"; "abbr"; "b";
            "bdi"; "bdo"; "br"; "cite"; "code"; "data"; "dfn"; "em"; "i";
            "kbd"; "mark"; "q"; "rb"; "rp"; "rt"; "rtc"; "ruby"; "s";
            "samp"; "small"; "span"; "strong"; "sub"; "sup"; "time"; "u";
            "var"; "wbr"; "caption"; "col"; "colgroup"; "table"; "tbody";
            "td"; "tfoot"; "th"; "thead"; "tr"];
  sanitizeHtml_defaults_allowedAttributes :=
    object_literal empty
      [("a", names ["href"; "name"; "target"]);
       ("img", names ["src"; "srcset"; "alt"; "title"; "width"; "height";
                      "loading"])];
  KATEX_CLASSES := js <$> ["katex"; "katex-display"; "katex-html"];
  Object_prototype_has := object_prototype_has
|}.

(** [{}] *)
Definition no_options : RenderOptions.t :=
  {| RenderOptions.baseUrl := None;
     RenderOptions.mediaBaseUrl := None;
     RenderOptions.inline := false;
     RenderOptions.allowIframes := false;
     RenderOptions.allowMath := false;
     RenderOptions.disableHtmlSanitization := false;
     RenderOptions.renderer := None;
     RenderOptions.allowedClasses := empty;
     RenderOptions.allowedTags := [];
     RenderOptions.allowedAttributes := empty;
     RenderOptions.breaks := false |}.

End Standin.

(** ** Inputs for the examples *)
Module Inputs.
Import Standin.

(** [{ allowedTags: ["script"] }] *)
Definition allow_script : RenderOptions.t :=
  {| RenderOptions.baseUrl := None;
     RenderOptions.mediaBaseUrl := None;
     RenderOptions.inline := false;
     RenderOptions.allowIframes := false;
     RenderOptions.allowMath := false;
     RenderOptions.disableHtmlSanitization := false;
     RenderOptions.renderer := None;
     RenderOptions.allowedClasses := empty;
     RenderOptions.allowedTags := [js "script"];
     RenderOptions.allowedAttributes := empty;
     RenderOptions.breaks := false |}.

(** [{ allowedClasses: { div: ["custom"] } }] *)
Definition custom_div_class : RenderOptions.t :=
  {| RenderOptions.baseUrl := None;
     RenderOptions.mediaBaseUrl := None;
     RenderOptions.inline := false;
     RenderOptions.allowIframes := false;
     RenderOptions.allowMath := false;
     RenderOptions.disableHtmlSanitization := false;
     RenderOptions.renderer := None;
     RenderOptions.allowedClasses :=
       object_literal empty [("div", classes [js "custom"])];
     RenderOptions.allowedTags := [];
     RenderOptions.allowedAttributes := empty;
     RenderOptions.breaks := false |}.



(** [{ mediaBaseUrl: "https://example.com/" }] *)
Definition media_base : RenderOptions.t :=
  {| RenderOptions.baseUrl := None;
     RenderOptions.mediaBaseUrl := Some (js "https://example.com/");
     RenderOptions.inline := false;
     RenderOptions.allowIframes := false;
     RenderOptions.allowMath := false;
     RenderOptions.disableHtmlSanitization := false;
     RenderOptions.renderer := None;
     RenderOptions.allowedClasses := empty;
     RenderOptions.allowedTags := [];
     RenderOptions.allowedAttributes := empty;
     RenderOptions.breaks := false |}.


Definition script_document : jsstring := js "<script>alert(1)</script>".

Definition foo_heading : jsstring := js "# Foo".



Definition absolute_link : jsstring := js "[x](https://example.com/a)".

(** A text that opens with an inline formula. *)
Definition formula_at_the_start : jsstring := js "$x$ costs".

(** The formula [\invalidcmd]. *)
Definition invalid_formula : jsstring := 92 :: js "invalidcmd".

End Inputs.
(** ** More of [mod.ts]

    The hook that [marked.use] installs on every token, the tokenizer of the
    plain-text path, and the readings of a text and of a token tree that the
    properties of [mathify] and [stripTokens] are stated with. *)

(** [String.prototype.endsWith] *)
Definition endsWith (s p : jsstring) : bool :=
  startsWith (reverse s) (reverse p).

(** [s.replace(pattern, replacement)] for a string [pattern]: the first
    occurrence only, found from the left.  The replacement is taken as it
    is written (the one of the hook holds no [$]). *)
Fixpoint replace_first (pattern replacement s : jsstring) : jsstring :=
  if startsWith s pattern
  then replacement ++ drop (length pattern) s
  else
    match s with
    | [] => []
    | c :: s' => c :: replace_first pattern replacement s'
    end.

(** [String.prototype.indexOf]: where [p] occurs first in [s]. *)
Fixpoint indexOf (s p : jsstring) : option nat :=
  if startsWith s p then Some O
  else
    match s with
    | [] => None
    | _ :: s' => S <$> indexOf s' p
    end.

(** The [walkTokens] hook: an [html] token that ends with the closing tag of
    a summary and a blank line loses one of the two line feeds. *)
Definition walkTokens (token : Token.t) : Token.t :=
  match token with
  | Token.html text =>
      if endsWith text (js "</summary>" ++ [NL; NL])
      then Token.html
             (replace_first (js "</summary>" ++ [NL; NL])
                (js "</summary>" ++ [NL]) text)
      else token
  | _ => token
  end.

(** The class StripTokenizer.  [cap] is what [this.rules.inline.code.exec]
    answers: [cap[0]] and [cap[2]] when the rule matches. *)
Module StripTokenizer.

(** [/\n/g]: one line feed. *)
Definition LINE_FEED_REGEXP : Matcher := fun s =>
  match s with
  | c :: _ => if c =? NL then Some ([c], []) else None
  | [] => None
  end.

(** The [text] of the token, from [cap[2]].  Where
    [text.substring(1, text.length - 1)] is taken, the text has a space at
    both ends and a code unit that is no space: its bounds are in order. *)
Definition codespan_text (cap2 : jsstring) : jsstring :=
  let text := replace LINE_FEED_REGEXP (fun _ _ => js " ") cap2 in
  let hasNonSpaceChars := existsb (fun c => negb (c =? 32)) text in
  let hasSpaceCharsOnBothEnds :=
    startsWith text (js " ") && endsWith text (js " ") in
  if hasNonSpaceChars && hasSpaceCharsOnBothEnds
  then take (length text - 1 - 1) (drop 1 text)
  else text.

(** [codespan]: [undefined] when the rule does not match. *)
Definition codespan (cap : option (jsstring * jsstring))
    : option Token.t :=
  match cap with
  | Some (cap0, cap2) => Some (Token.codespan (codespan_text cap2))
  | None => None
  end.

End StripTokenizer.

(** A [$] stands right behind a white space or another [$]: the only places
    where one of the two math patterns can start. *)
Fixpoint math_opening (s : jsstring) : bool :=
  match s with
  | c :: ((d :: _) as s') =>
      ((isWhiteSpace c || (c =? DOLLAR)) && (d =? DOLLAR)) || math_opening s'
  | _ => false
  end.

(** The levels of the heading tokens of a token tree, in document order. *)
Fixpoint heading_depths (token : Token.t) : list N :=
  let all :=
    fix all (l : list Token.t) : list N :=
      match l with
      | [] => []
      | t :: l => heading_depths t ++ all l
      end in
  let cells :=
    fix cells (l : list (list Token.t)) : list N :=
      match l with
      | [] => []
      | c :: l => all c ++ cells l
      end in
  let rows :=
    fix rows (l : list (list (list Token.t))) : list N :=
      match l with
      | [] => []
      | r :: l => cells r ++ rows l
      end in
  match token with
  | Token.heading d tokens => d :: all tokens
  | Token.table head body => cells head ++ rows body
  | Token.blockquote tokens | Token.list_ tokens | Token.list_item tokens
  | Token.paragraph tokens | Token.text _ (Some tokens) | Token.link tokens
  | Token.strong tokens | Token.em tokens | Token.del tokens => all tokens
  | _ => []
  end.

(** The same for the tokens of an array, of the cells of a row and of the
    rows of a table. *)
Fixpoint headings_of (l : list Token.t) : list N :=
  match l with
  | [] => []
  | t :: l => heading_depths t ++ headings_of l
  end.

Fixpoint headings_of_cells (l : list (list Token.t)) : list N :=
  match l with
  | [] => []
  | c :: l => headings_of c ++ headings_of_cells l
  end.

Fixpoint headings_of_rows (l : list (list (list Token.t))) : list N :=
  match l with
  | [] => []
  | r :: l => headings_of_cells r ++ headings_of_rows l
  end.

Definition is_heading (token : Token.t) : bool :=
  match token with
  | Token.heading _ _ => true
  | _ => false
  end.

(** The headings of a document are tokens of its top level: no token holds a
    heading below it. *)
Definition headings_on_top (tokens : list Token.t) : Prop :=
  Forall (fun token => headings_of (subtokens token) = []) tokens.

(** The renderer that a call of [render] works with: the one of the
    caller when [opts.renderer] is set, a new one otherwise. *)
Definition renderer_in_use (opts : RenderOptions.t) (store : Store)
    : option Renderer.t :=
  match RenderOptions.renderer opts with
  | Some r => store !! r
  | None => Some (Renderer.new opts)
  end.

(** The [index] of a call of [stripTokens] after the loop has gone over
    [tokens]: each heading among them has moved it by one. *)
Definition index_after (tokens : list Token.t) (index : nat) : nat :=
  foldl (fun i token => if is_heading token then S i else i) index tokens.

Section Walk.
Context `{Collaborators}.

(** A round of the loop of [stripTokens] on an array that has the section
    [index]: it goes through, moves [index] by one for a heading and leaves
    it alone otherwise, and adds one section for each heading of the token,
    in document order, behind the sections that are there. *)
Definition walks_in_order (token : Token.t) : Prop :=
  forall h i s,
    (i < length s)%nat ->
    exists s',
      stripToken h token i s
      = Some (if is_heading token then S i else i, s')
      /\ depth <$> s' = (depth <$> s) ++ heading_depths token.

(** A round of the loop outside a heading, on a token that holds no
    heading: it goes through and leaves every header as it is. *)
Definition keeps_headers (token : Token.t) : Prop :=
  heading_depths token = [] ->
  forall i s,
    (i < length s)%nat ->
    exists s',
      stripToken false token i s = Some (i, s')
      /\ header <$> s' = header <$> s.

End Walk.

(** The MathML tags that [render] adds to the allowed tags when
    [allowMath] is set. *)
Definition mathml_tags : list jsstring :=
  js <$> ["math"; "maction"; "annotation"; "annotation-xml"; "menclose";
          "merror"; "mfenced"; "mfrac"; "mi"; "mmultiscripts"; "mn"; "mo";
          "mover"; "mpadded"; "mphantom"; "mprescripts"; "mroot"; "mrow";
          "ms"; "semantics"; "mspace"; "msqrt"; "mstyle"; "msub"; "msup";
          "msubsup"; "mtable"; "mtd"; "mtext"; "mtr"].

#[global] Instance AllowedAttribute_eq_dec : EqDecision AllowedAttribute.
Proof. solve_decision. Defined.

(** ** More stand-ins and inputs *)

Module Samples.

(** [{ baseUrl: "https://example.com/" }] *)
Definition base_only : RenderOptions.t :=
  {| RenderOptions.baseUrl := Some (js "https://example.com/");
     RenderOptions.mediaBaseUrl := None;
     RenderOptions.inline := false;
     RenderOptions.allowIframes := false;
     RenderOptions.allowMath := false;
     RenderOptions.disableHtmlSanitization := false;
     RenderOptions.renderer := None;
     RenderOptions.allowedClasses := empty;
     RenderOptions.allowedTags := [];
     RenderOptions.allowedAttributes := empty;
     RenderOptions.breaks := false |}.

(** The tokens of [# T], of [> ## Q] and of a heading with its text in
    bold, [# **B**]. *)
Definition title : Token.t := Token.heading 1 [Token.text (js "T") None].

Definition quoted_heading : Token.t :=
  Token.blockquote [Token.heading 2 [Token.text (js "Q") None]].

Definition bold : Token.t := Token.strong [Token.text (js "B") None].

(** An [html] token that opens a summary. *)
Definition summary : jsstring := js "<details><summary>More".

(** A text that opens with a formula and names a price, and two texts
    with a formula inside. *)
Definition leading_formula : jsstring := js "$x$ costs US$5".


Definition inline_formula : jsstring :=
  js "sum" ++ [NL] ++ js "$x+y$ of both".

End Samples.

(** * Properties *)

(** ** Strings *)

Lemma trimStart_head s c r : trimStart s = c :: r -> isWhiteSpace c = false.
Proof.
  induction s as [|d s IH]; simpl; [discriminate|].
  destruct (isWhiteSpace d) eqn:Hd; [exact IH|].
  intros [= <- _]. exact Hd.
Qed.

Lemma trim_last s c : last (trim s) = Some c -> isWhiteSpace c = false.
Proof.
  unfold trim, trimEnd. rewrite last_reverse.
  destruct (trimStart (reverse (trimStart s))) as [|d r] eqn:E; simpl.
  - discriminate.
  - intros [= <-]. exact (trimStart_head _ _ _ E).
Qed.

Lemma NL_isWhiteSpace : isWhiteSpace NL = true.
Proof. reflexivity. Qed.

Lemma trim_last_not_NL s : last (trim s) <> Some NL.
Proof. intros E. apply trim_last in E. discriminate. Qed.

(** The scan on a string of which the first [k] code units are covered by a
    match is the scan on what follows them. *)
Lemma replace_scan_skip m f k s :
  replace_scan m f k s = replace_scan m f O (drop k s).
Proof.
  revert k. induction s as [|c s IH]; intros [|k]; simpl; auto.
Qed.

Lemma newline_run_replicate s : newline_run s = replicate (lead s) NL.
Proof.
  unfold lead. induction s as [|c s IH]; simpl; [done|].
  destruct (N.eqb_spec c NL) as [->|]; simpl; [|done]. by rewrite <- IH.
Qed.

Lemma newline_run_split s : s = replicate (lead s) NL ++ drop (lead s) s.
Proof.
  unfold lead. induction s as [|c s IH]; simpl; [done|].
  destruct (N.eqb_spec c NL) as [->|]; simpl; [|done]. by rewrite <- IH.
Qed.

Lemma lead_drop s : lead (drop (lead s) s) = O.
Proof.
  unfold lead. induction s as [|c s IH]; simpl; [done|].
  destruct (N.eqb_spec c NL) as [->|Hc]; simpl; [done|].
  by destruct (N.eqb_spec c NL).
Qed.

Lemma lead_cons_NL s : lead (NL :: s) = S (lead s).
Proof. reflexivity. Qed.

Lemma lead_cons_other c s : c <> NL -> lead (c :: s) = O.
Proof. intros Hc. unfold lead. simpl. by destruct (N.eqb_spec c NL). Qed.

Lemma collapse_cons_other c s :
  c <> NL -> collapse_newlines (c :: s) = c :: collapse_newlines s.
Proof.
  intros Hc. unfold collapse_newlines, replace, NEWLINES_REGEXP. simpl.
  by destruct (N.eqb_spec c NL).
Qed.

Lemma collapse_short s :
  (lead (NL :: s) < 3)%nat ->
  collapse_newlines (NL :: s) = NL :: collapse_newlines s.
Proof.
  intros Hn. unfold collapse_newlines, replace. simpl.
  unfold NEWLINES_REGEXP. fold (lead (NL :: s)).
  destruct (Nat.leb_spec 3 (lead (NL :: s))); [lia|done].
Qed.

Lemma collapse_run s :
  (3 <= lead (NL :: s))%nat ->
  collapse_newlines (NL :: s)
  = NL :: collapse_newlines (drop (lead (NL :: s)) (NL :: s)).
Proof.
  intros Hn. unfold collapse_newlines, replace. simpl replace_scan at 1.
  unfold NEWLINES_REGEXP at 1. fold (lead (NL :: s)).
  destruct (Nat.leb_spec 3 (lead (NL :: s))); [|lia].
  rewrite replace_scan_skip. fold (lead (NL :: s)).
  rewrite lead_cons_NL. simpl. done.
Qed.

Lemma has_newline_run3_cons_NL r :
  has_newline_run3 (NL :: r) = (2 <=? lead r)%nat || has_newline_run3 r.
Proof.
  destruct r as [|b [|c r]]; try reflexivity.
  - unfold lead; simpl. by destruct (N.eqb_spec b NL).
  - unfold lead. simpl.
    destruct (N.eqb_spec b NL) as [->|]; destruct (N.eqb_spec c NL) as [->|];
      simpl; try done.
Qed.

Lemma has_newline_run3_cons_other c r :
  c <> NL -> has_newline_run3 (c :: r) = has_newline_run3 r.
Proof.
  intros Hc. destruct r as [|b [|d r]]; try reflexivity.
  simpl. by destruct (N.eqb_spec c NL).
Qed.

(** What [replace(/\n{3,}/g, "\n")] does to the runs of line feeds: none of
    three is left, a leading run of three or more shrinks to one line feed,
    a shorter one stays, and the last code unit stays what it was. *)
Lemma collapse_newlines_runs s :
  has_newline_run3 (collapse_newlines s) = false
  /\ lead (collapse_newlines s) = (if (3 <=? lead s)%nat then 1%nat else lead s)
  /\ last (collapse_newlines s) = last s.
Proof.
  remember (length s) as n eqn:Hn. revert s Hn.
  induction n as [n IH] using lt_wf_ind. intros [|c s] Hn.
  { done. }
  destruct (N.eq_dec c NL) as [->|Hc].
  - destruct (Nat.leb_spec 3 (lead (NL :: s))) as [Hrun|Hrun].
    + rewrite collapse_run by done.
      set (t := drop (lead (NL :: s)) (NL :: s)).
      destruct (IH (length t)) with (s := t) as (H3 & Hl & Hlast); [|done|].
      { subst n t. rewrite length_drop, lead_cons_NL. simpl. lia. }
      assert (Ht : lead t = O) by apply lead_drop.
      rewrite Ht in Hl. simpl in Hl.
      rewrite has_newline_run3_cons_NL, lead_cons_NL, Hl, H3.
      split; [done|]. split; [done|].
      rewrite last_cons, Hlast.
      rewrite (newline_run_split (NL :: s)) at 1. fold t.
      rewrite last_app. destruct (last t); [done|].
      rewrite lead_cons_NL, replicate_S_end. by rewrite last_snoc.
    + rewrite collapse_short by done.
      destruct (IH (length s)) with (s := s) as (H3 & Hl & Hlast); [|done|].
      { subst n. simpl. lia. }
      rewrite lead_cons_NL in Hrun.
      destruct (Nat.leb_spec 3 (lead s)); [lia|].
      rewrite has_newline_run3_cons_NL, !lead_cons_NL, Hl, H3.
      split; [|split; [done|]].
      * destruct (Nat.leb_spec 2 (lead s)); [lia|done].
      * by rewrite !last_cons, Hlast.
  - rewrite collapse_cons_other by done.
    destruct (IH (length s)) with (s := s) as (H3 & Hl & Hlast); [|done|].
    { subst n. simpl. lia. }
    rewrite has_newline_run3_cons_other, !lead_cons_other by done.
    split; [done|]. split; [done|]. by rewrite !last_cons, Hlast.
Qed.

Lemma has_newline_run3_snoc r x :
  last r <> Some NL -> has_newline_run3 (r ++ [x]) = has_newline_run3 r.
Proof.
  induction r as [|a r IH]; [done|].
  destruct r as [|b r]; [done|].
  destruct r as [|c r].
  - simpl. intros Hb. destruct (N.eqb_spec b NL) as [->|]; [done|].
    by rewrite andb_false_r.
  - intros Hl. rewrite last_cons_cons in Hl. specialize (IH Hl).
    simpl in *. by rewrite IH.
Qed.

Lemma startsWith_spec s p :
  startsWith s p = true <-> exists rest, s = p ++ rest.
Proof.
  revert s. induction p as [|c p IH]; intros s; simpl.
  - split; [by exists s|done].
  - destruct s as [|d s].
    + split; [done|]. by intros [rest [=]].
    + rewrite andb_true_iff, IH, N.eqb_eq. split.
      * intros [-> [rest ->]]. by exists rest.
      * intros [rest [= -> ->]]. split; [done|by exists rest].
Qed.

Lemma trimStart_not_white c s :
  isWhiteSpace c = false -> trimStart (c :: s) = c :: s.
Proof. intros Hc. simpl. by rewrite Hc. Qed.

Lemma trimStart_suffix s : exists k, trimStart s = drop k s.
Proof.
  induction s as [|c s [k IH]]; [by exists O|]. simpl.
  destruct (isWhiteSpace c); [by exists (S k)|by exists O].
Qed.

(** A string that neither opens nor ends with a white space is its own
    [trim]. *)
Lemma trim_fixed s :
  (forall c, head s = Some c -> isWhiteSpace c = false) ->
  (forall c, last s = Some c -> isWhiteSpace c = false) ->
  trim s = s.
Proof.
  intros Hh Hl. unfold trim, trimEnd.
  assert (trimStart s = s) as ->.
  { destruct s as [|c s]; [done|]. apply trimStart_not_white. by apply Hh. }
  assert (trimStart (reverse s) = reverse s) as ->.
  { destruct (reverse s) as [|c r] eqn:E; [done|].
    apply trimStart_not_white, Hl.
    by rewrite <- (reverse_involutive s), E, last_reverse. }
  apply reverse_involutive.
Qed.

Lemma trim_head s c : head (trim s) = Some c -> isWhiteSpace c = false.
Proof.
  unfold trim, trimEnd.
  destruct (trimStart_suffix (reverse (trimStart s))) as [k ->].
  rewrite drop_reverse, reverse_involutive.
  destruct (trimStart s) as [|d r] eqn:E; [by rewrite take_nil|].
  destruct (length (d :: r) - k)%nat; [done|]. simpl.
  intros [= <-]. by apply (trimStart_head s d r).
Qed.

Lemma trim_trim s : trim (trim s) = trim s.
Proof. apply trim_fixed; [apply trim_head|apply trim_last]. Qed.

(** [trimStart] takes white space off, and nothing else. *)
Lemma trimStart_split s :
  exists l, s = l ++ trimStart s /\ Forall (fun c => isWhiteSpace c = true) l.
Proof.
  induction s as [|c s (l & Hs & Hl)]; [by exists []|]. simpl.
  destruct (isWhiteSpace c) eqn:Hc.
  - exists (c :: l). split; [simpl; by f_equal|by constructor].
  - by exists [].
Qed.

(** [trim] gives the string without the white space at its two ends. *)
Lemma trim_trimmed s : trimmed s (trim s).
Proof.
  destruct (trimStart_split s) as (l & Hs & Hl).
  destruct (trimStart_split (reverse (trimStart s))) as (r & Hr & Hwr).
  exists l, (reverse r). split; [|split; [done|split]].
  - rewrite Hs at 1. f_equal. unfold trim, trimEnd.
    rewrite <- reverse_app, <- Hr. by rewrite reverse_involutive.
  - rewrite Forall_forall in *. intros c Hc. apply Hwr.
    by apply elem_of_reverse.
  - split; [apply trim_head|apply trim_last].
Qed.

(** The replacement of the runs of line feeds, run by run. *)
Lemma lead_replicate n t : lead t = O -> lead (replicate n NL ++ t) = n.
Proof.
  intros Ht. induction n as [|n IH]; [done|].
  simpl. by rewrite lead_cons_NL, IH.
Qed.

Lemma collapse_newlines_run s :
  collapse_newlines s
  = run_text (lead s) ++ collapse_newlines (drop (lead s) s).
Proof.
  pose proof (lead_drop s) as Ht. rewrite (newline_run_split s) at 1.
  set (t := drop (lead s) s) in *. set (n := lead s). clearbody t n.
  unfold run_text. destruct (Nat.leb_spec 3 n) as [Hn|Hn].
  - destruct n as [|n]; [lia|].
    change (replicate (S n) NL ++ t) with (NL :: (replicate n NL ++ t)).
    assert (Hlead : lead (NL :: (replicate n NL ++ t)) = S n)
      by (by rewrite lead_cons_NL, lead_replicate).
    rewrite collapse_run by (rewrite Hlead; lia). rewrite Hlead. simpl.
    by rewrite drop_app_length' by (by rewrite length_replicate).
  - induction n as [|n IH]; [done|].
    change (replicate (S n) NL ++ t) with (NL :: (replicate n NL ++ t)).
    assert (Hlead : lead (NL :: (replicate n NL ++ t)) = S n)
      by (by rewrite lead_cons_NL, lead_replicate).
    rewrite collapse_short by (rewrite Hlead; lia).
    rewrite IH by lia. done.
Qed.

Lemma runs_collapsed_lead k s :
  runs_collapsed k s
  = run_text (k + lead s)
      ++ match drop (lead s) s with
         | [] => []
         | c :: s' => c :: runs_collapsed O s'
         end.
Proof.
  revert k. induction s as [|c s IH]; intros k.
  - simpl. by rewrite Nat.add_0_r, app_nil_r.
  - cbn [runs_collapsed]. destruct (N.eqb_spec c NL) as [->|Hc].
    + rewrite IH, lead_cons_NL. simpl. by rewrite Nat.add_succ_r.
    + rewrite lead_cons_other by done. simpl. by rewrite Nat.add_0_r.
Qed.

(** [replace(/\n{3,}/g, "\n")] is the collapse of the runs as the
    specification describes it. *)
Lemma collapse_newlines_runs_collapsed s :
  collapse_newlines s = runs_collapsed O s.
Proof.
  remember (length s) as n eqn:Hn. revert s Hn.
  induction n as [n IH] using lt_wf_ind. intros s Hn.
  rewrite collapse_newlines_run, runs_collapsed_lead. simpl. f_equal.
  pose proof (lead_drop s) as Ht.
  assert (Hl : (length (drop (lead s) s) <= length s)%nat)
    by (rewrite length_drop; lia).
  destruct (drop (lead s) s) as [|c t]; [done|].
  assert (c <> NL) as Hc.
  { intros ->. by rewrite lead_cons_NL in Ht. }
  rewrite collapse_cons_other by done. f_equal.
  apply (IH (length t)); [simpl in Hl; lia|done].
Qed.

(** ** Walking the tokens *)

Lemma grows_refl sections : grows sections sections.
Proof. unfold grows. done. Qed.

Lemma grows_trans s1 s2 s3 : grows s1 s2 -> grows s2 s3 -> grows s1 s3.
Proof. unfold grows. intros. by etrans. Qed.

Lemma grows_length s1 s2 : grows s1 s2 -> (length s1 <= length s2)%nat.
Proof.
  unfold grows. intros Hp. apply prefix_length in Hp.
  by rewrite !length_fmap in Hp.
Qed.

Lemma append_total h x index sections :
  (index < length sections)%nat ->
  exists sections',
    append h x index sections = Some sections'
    /\ length sections' = length sections
    /\ grows sections sections'.
Proof.
  intros Hi. destruct (lookup_lt_is_Some_2 _ _ Hi) as [s Hs].
  unfold append. rewrite Hs. simpl. eexists. split; [done|].
  split; [by rewrite length_insert|].
  unfold grows. rewrite list_fmap_insert.
  rewrite list_insert_id; [done|].
  rewrite list_lookup_fmap, Hs. by destruct h.
Qed.

Lemma open_section_total d index sections :
  (index < length sections)%nat ->
  exists sections',
    open_section d index sections = Some (S index, sections')
    /\ length sections' = S (length sections)
    /\ grows sections sections'.
Proof.
  intros Hi. destruct (lookup_lt_is_Some_2 _ _ Hi) as [s Hs].
  unfold open_section. rewrite Hs. simpl. eexists. split; [done|].
  split; [rewrite length_app, length_insert; simpl; lia|].
  unfold grows. rewrite fmap_app, list_fmap_insert.
  rewrite list_insert_id; [by apply prefix_app_r|].
  by rewrite list_lookup_fmap, Hs.
Qed.

Section StripProperties.
Context `{Collaborators}.

(** The equations of [stripToken], one for each shape of the loop body. *)
Lemma stripToken_heading h d tokens i s :
  stripToken h (Token.heading d tokens) i s
  = ('(i, s) ← open_section d i s; stripChildren true tokens i s).
Proof. reflexivity. Qed.

Lemma stripToken_table h head body i s :
  stripToken h (Token.table head body) i s
  = (s ← stripCells h i head s;
     s ← append h [NL] i s;
     s ← stripRows h i body s;
     Some (i, s)).
Proof. reflexivity. Qed.

Lemma stripToken_list h items i s :
  stripToken h (Token.list_ items) i s
  = (s ← stripTokens_from h items (length s - 1)%nat s; Some (i, s)).
Proof. reflexivity. Qed.

Lemma stripToken_list_item h tokens i s :
  stripToken h (Token.list_item tokens) i s
  = ('(i, s) ← stripChildren false tokens i s;
     s ← append h [NL] i s;
     Some (i, s)).
Proof. reflexivity. Qed.

Lemma stripToken_recurses_only h token tokens i s :
  recurses_only token = Some tokens ->
  stripToken h token i s = stripChildren false tokens i s.
Proof.
  destruct token as [| | | | | | | | | |? []| | | | | | | | |];
    try discriminate; intros [= <-]; reflexivity.
Qed.

Lemma stripTokens_from_total tokens :
  Forall goes_through tokens ->
  forall h i s,
    (i < length s)%nat ->
    exists s', stripTokens_from h tokens i s = Some s' /\ grows s s'.
Proof.
  induction 1 as [|token tokens Ht _ IH]; intros h i s Hi; simpl.
  - exists s. split; [done|apply grows_refl].
  - destruct (Ht h i s Hi) as (i' & s' & -> & Hi' & Hg). simpl.
    destruct (IH h i' s' Hi') as (s'' & -> & Hg').
    exists s''. split; [done|]. by eapply grows_trans.
Qed.

Lemma stripChildren_total inner tokens :
  Forall goes_through tokens ->
  forall i s,
    (i < length s)%nat ->
    exists s',
      stripChildren inner tokens i s = Some (i, s')
      /\ (i < length s')%nat /\ grows s s'.
Proof.
  intros Ht i s Hi. unfold stripChildren.
  destruct (stripTokens_from_total tokens Ht inner (length s - 1)%nat s)
    as (s' & -> & Hg); [lia|].
  exists s'. split; [done|]. split; [|done].
  apply grows_length in Hg. lia.
Qed.

Lemma stripCells_total row :
  Forall (Forall goes_through) row ->
  forall h i s,
    (i < length s)%nat ->
    exists s', stripCells h i row s = Some s' /\ grows s s'.
Proof.
  induction 1 as [|cell row Hc _ IH]; intros h i s Hi; simpl.
  - exists s. split; [done|apply grows_refl].
  - destruct (stripTokens_from_total cell Hc h (length s - 1)%nat s)
      as (s1 & -> & Hg1); [lia|]. simpl.
    pose proof (grows_length _ _ Hg1).
    destruct (append_total h (js " ") i s1) as (s2 & -> & Hl2 & Hg2); [lia|].
    simpl. destruct (IH h i s2) as (s3 & -> & Hg3); [lia|].
    exists s3. split; [done|]. eauto using grows_trans.
Qed.

Lemma stripRows_total body :
  Forall (Forall (Forall goes_through)) body ->
  forall h i s,
    (i < length s)%nat ->
    exists s', stripRows h i body s = Some s' /\ grows s s'.
Proof.
  induction 1 as [|row body Hr _ IH]; intros h i s Hi; simpl.
  - exists s. split; [done|apply grows_refl].
  - destruct (stripCells_total row Hr h i s Hi) as (s1 & -> & Hg1). simpl.
    pose proof (grows_length _ _ Hg1).
    destruct (append_total h [NL] i s1) as (s2 & -> & Hl2 & Hg2); [lia|].
    simpl. destruct (IH h i s2) as (s3 & -> & Hg3); [lia|].
    exists s3. split; [done|]. eauto using grows_trans.
Qed.

Ltac appends Hi :=
  match goal with
  | |- context [append ?h ?x ?i ?s] =>
      let s' := fresh "s" in
      let Hl := fresh "Hl" in
      let Hg := fresh "Hg" in
      destruct (append_total h x i s Hi) as (s' & -> & Hl & Hg);
      simpl; exists i, s'; split; [done|]; split; [lia|done]
  end.

Lemma stripToken_total token : goes_through token.
Proof.
  induction token as [token IH] using Token_subtokens_ind.
  intros h i s Hi.
  destruct (recurses_only token) as [tokens|] eqn:Hr.
  { rewrite (stripToken_recurses_only _ _ _ _ _ Hr).
    assert (subtokens token = tokens) as <-.
    { destruct token as [| | | | | | | | | |? []| | | | | | | | |];
        simpl in *; congruence. }
    destruct (stripChildren_total false _ IH i s Hi) as (s' & ? & ? & ?).
    eauto. }
  destruct token as [raw|lang text|d tokens|head body| |tokens|items|tokens
                    |tokens|text|raw [tokens|]| | |tokens|title text|tokens
                    |tokens|text| |tokens];
    try discriminate; simpl in IH.
  - simpl. appends Hi.
  - simpl. destruct (bool_decide _).
    + exists i, s. split; [done|]. split; [done|apply grows_refl].
    + appends Hi.
  - rewrite stripToken_heading.
    destruct (open_section_total d i s Hi) as (s1 & -> & Hl1 & Hg1). simpl.
    destruct (stripChildren_total true _ IH (S i) s1) as (s2 & -> & ? & Hg2);
      [lia|].
    exists (S i), s2. split; [done|]. split; [done|].
    by eapply grows_trans.
  - rewrite stripToken_table.
    apply Forall_app in IH as [Hh Hb].
    apply Forall_concat in Hh.
    apply Forall_concat in Hb. apply (proj1 (Forall_concat _ _)) in Hb.
    destruct (stripCells_total head Hh h i s Hi) as (s1 & -> & Hg1). simpl.
    pose proof (grows_length _ _ Hg1).
    destruct (append_total h [NL] i s1) as (s2 & -> & Hl2 & Hg2); [lia|].
    simpl. destruct (stripRows_total body Hb h i s2) as (s3 & -> & Hg3);
      [lia|].
    simpl. exists i, s3. pose proof (grows_length _ _ Hg3).
    split; [done|]. split; [lia|]. eauto using grows_trans.
  - exists i, s. split; [done|]. split; [done|apply grows_refl].
  - rewrite stripToken_list.
    destruct (stripTokens_from_total items IH h (length s - 1)%nat s)
      as (s1 & -> & Hg1); [lia|].
    simpl. exists i, s1. pose proof (grows_length _ _ Hg1).
    split; [done|]. split; [lia|done].
  - rewrite stripToken_list_item.
    destruct (stripChildren_total false _ IH i s Hi) as (s1 & -> & ? & Hg1).
    simpl.
    destruct (append_total h [NL] i s1) as (s2 & -> & Hl2 & Hg2); [lia|].
    simpl. exists i, s2. split; [done|]. split; [lia|].
    by eapply grows_trans.
  - simpl. appends Hi.
  - simpl. appends Hi.
  - exists i, s. split; [done|]. split; [done|apply grows_refl].
  - exists i, s. split; [done|]. split; [done|apply grows_refl].
  - simpl. appends Hi.
  - simpl. appends Hi.
  - exists i, s. split; [done|]. split; [done|apply grows_refl].
Qed.

(** A heading opens a section of its depth behind the ones that are there,
and the walk below the heading leaves that depth alone. *)
Lemma heading_opens_section h d tokens i s :
  (i < length s)%nat ->
  exists s',
    stripToken h (Token.heading d tokens) i s = Some (S i, s')
    /\ grows s s'
    /\ (depth <$> s') !! length s = Some d.
Proof.
  intros Hi. rewrite stripToken_heading.
  pose proof (lookup_lt_is_Some_2 _ _ Hi) as [sec Hsec].
  unfold open_section. rewrite Hsec. simpl.
  set (s1 := <[i:=close_section sec]> s
               ++ [{| header := []; depth := d; content := [] |}]).
  assert (Hl1 : length s1 = S (length s)).
  { subst s1. rewrite length_app, length_insert. simpl. lia. }
  destruct (stripChildren_total true tokens) with (i := S i) (s := s1)
    as (s2 & -> & _ & Hg2).
  { apply Forall_forall. intros token _. apply stripToken_total. }
  { lia. }
  exists s2. split; [done|].
  assert (Hg1 : grows s s1).
  { destruct (open_section_total d i s Hi) as (s1' & Ho & _ & Hg).
    unfold open_section in Ho. rewrite Hsec in Ho. simpl in Ho.
    by injection Ho as <-. }
  split; [by eapply grows_trans|].
  eapply prefix_lookup_Some; [|exact Hg2].
  subst s1. rewrite fmap_app, lookup_app_r; rewrite length_fmap, length_insert;
    [|done].
  by rewrite Nat.sub_diag.
Qed.

(** [stripTokens] on an array that is not empty goes through, and the
    sections that were there stay where they are, with their depths. *)
Lemma stripTokens_total tokens sections h :
  sections <> [] ->
  exists sections',
    stripTokens tokens sections h = Some sections'
    /\ grows sections sections'.
Proof.
  intros Hne. unfold stripTokens.
  apply stripTokens_from_total.
  - apply Forall_forall. intros token _. apply stripToken_total.
  - destruct sections; [done|simpl; lia].
Qed.

Lemma stripSplitBySections_total markdown opts store :
  exists sections,
    stripSplitBySections markdown opts store = Some sections
    /\ grows [root_section] sections.
Proof. unfold stripSplitBySections. by apply stripTokens_total. Qed.

End StripProperties.

(** ** What the two math patterns match *)

(** A match at the head of the string is replaced and the scan goes on
    behind it. *)
Lemma replace_match (m : Matcher) f s matched p1 rest :
  m s = Some (matched, p1) -> s = matched ++ rest -> matched <> [] ->
  replace m f s = f matched p1 ++ replace m f rest.
Proof.
  intros Hm -> Hne. destruct matched as [|c matched]; [done|].
  unfold replace. simpl app. simpl replace_scan. simpl in Hm. rewrite Hm.
  rewrite replace_scan_skip. simpl. by rewrite drop_app_length.
Qed.

(** Where the matcher fails, the code unit is kept. *)
Lemma replace_keep (m : Matcher) f c s :
  m (c :: s) = None -> replace m f (c :: s) = c :: replace m f s.
Proof. intros Hm. unfold replace. simpl. by rewrite Hm. Qed.

Lemma BLOCK_MATH_REGEXP_needs_dollar c s :
  c <> DOLLAR -> BLOCK_MATH_REGEXP (c :: s) = None.
Proof.
  intros Hc. unfold BLOCK_MATH_REGEXP.
  destruct s as [|? [|? [|? ?]]]; try done.
  by destruct (N.eqb_spec c DOLLAR).
Qed.

Lemma replace_block_prefix f pre rest :
  DOLLAR ∉ pre ->
  replace BLOCK_MATH_REGEXP f (pre ++ rest)
  = pre ++ replace BLOCK_MATH_REGEXP f rest.
Proof.
  induction pre as [|c pre IH]; [done|].
  intros [Hc Hpre]%not_elem_of_cons. simpl.
  rewrite replace_keep by (apply BLOCK_MATH_REGEXP_needs_dollar; congruence).
  by rewrite IH.
Qed.

Lemma isWhiteSpace_not_dollar w : isWhiteSpace w = true -> w <> DOLLAR.
Proof. by intros Hw ->. Qed.

Lemma block_math_tail_finds p1 formula w post :
  formula_text formula -> isWhiteSpace w = true ->
  block_math_tail p1 (formula ++ [w; DOLLAR; DOLLAR] ++ post)
  = Some (p1 ++ formula, w).
Proof.
  intros Hf Hw. revert p1.
  induction Hf as [|c formula [Hlt Hc] Hrest IH]; intros p1;
    cbn [app block_math_tail].
  - rewrite Hw. simpl. by rewrite app_nil_r.
  - assert (startsWith (formula ++ w :: DOLLAR :: DOLLAR :: post)
              [DOLLAR; DOLLAR] = false) as ->.
    { destruct Hrest as [|d formula [_ Hd] _]; cbn [app startsWith].
      - apply isWhiteSpace_not_dollar in Hw.
        by destruct (N.eqb_spec DOLLAR w).
      - by destruct (N.eqb_spec DOLLAR d). }
    rewrite andb_false_r, Hlt. cbn [app] in IH. rewrite IH.
    by rewrite <- app_assoc.
Qed.

(** A block of display math on one line is a match of the block pattern. *)
Lemma BLOCK_MATH_REGEXP_matches w1 formula w2 post :
  isWhiteSpace w1 = true -> isWhiteSpace w2 = true ->
  formula <> [] -> formula_text formula ->
  BLOCK_MATH_REGEXP
    ([DOLLAR; DOLLAR; w1] ++ formula ++ [w2; DOLLAR; DOLLAR] ++ post)
  = Some ([DOLLAR; DOLLAR; w1] ++ formula ++ [w2; DOLLAR; DOLLAR], formula).
Proof.
  intros Hw1 Hw2 Hne Hf. destruct formula as [|c formula]; [done|].
  apply Forall_cons in Hf as [[Hlt Hc] Hf].
  unfold BLOCK_MATH_REGEXP. simpl. rewrite Hw1, Hlt. simpl.
  pose proof (block_math_tail_finds [c] formula w2 post Hf Hw2) as Ht.
  simpl in Ht. by rewrite Ht.
Qed.

(** The first display formula of a text is deleted by the first pass of
    [stripSplitBySections]. *)
Lemma replace_block_deletes pre w1 formula w2 post :
  DOLLAR ∉ pre ->
  isWhiteSpace w1 = true -> isWhiteSpace w2 = true ->
  formula <> [] -> formula_text formula ->
  replace BLOCK_MATH_REGEXP (fun _ _ => [])
    (pre ++ ([DOLLAR; DOLLAR; w1] ++ formula ++ [w2; DOLLAR; DOLLAR]) ++ post)
  = pre ++ replace BLOCK_MATH_REGEXP (fun _ _ => []) post.
Proof.
  intros Hpre Hw1 Hw2 Hne Hf. rewrite replace_block_prefix by done.
  f_equal.
  rewrite (replace_match _ _ _
             ([DOLLAR; DOLLAR; w1] ++ formula ++ [w2; DOLLAR; DOLLAR])
             formula post); [done| |done|done].
  rewrite <- (BLOCK_MATH_REGEXP_matches w1 formula w2 post) by done.
  f_equal. simpl. by rewrite <- app_assoc.
Qed.

Lemma inline_math_tail_finds p1 formula post :
  formula_text formula ->
  inline_math_tail p1 (formula ++ DOLLAR :: post) = Some (p1 ++ formula).
Proof.
  intros Hf. revert p1.
  induction Hf as [|c formula [Hlt Hc] _ IH]; intros p1; simpl.
  - by rewrite app_nil_r.
  - destruct (N.eqb_spec c DOLLAR); [done|].
    rewrite andb_false_r, Hlt, IH. by rewrite <- app_assoc.
Qed.

(** An inline formula that does not open with a white space is a match of
    the inline pattern. *)
Lemma INLINE_MATH_REGEXP_matches w formula post :
  isWhiteSpace w = true -> formula_text formula ->
  (forall c, head formula = Some c -> isWhiteSpace c = false) ->
  INLINE_MATH_REGEXP ([w; DOLLAR] ++ formula ++ DOLLAR :: post)
  = Some ([w; DOLLAR] ++ formula ++ [DOLLAR], formula).
Proof.
  intros Hw Hf Hhead.
  pose proof (inline_math_tail_finds [] formula post Hf) as Ht.
  destruct formula as [|c formula]; cbn [app] in *.
  - unfold INLINE_MATH_REGEXP. rewrite Hw, N.eqb_refl, Ht. reflexivity.
  - unfold INLINE_MATH_REGEXP. rewrite Hw, (Hhead c eq_refl), N.eqb_refl.
    cbn [andb negb]. rewrite Ht. reflexivity.
Qed.

Lemma INLINE_MATH_REGEXP_needs_dollar c d s :
  d <> DOLLAR -> INLINE_MATH_REGEXP (c :: d :: s) = None.
Proof.
  intros Hd. unfold INLINE_MATH_REGEXP. destruct s; [done|].
  destruct (N.eqb_spec d DOLLAR); [done|]. by rewrite andb_false_r.
Qed.

(** The inline pattern starts with a white space. *)
Lemma INLINE_MATH_REGEXP_needs_space w s :
  isWhiteSpace w = false -> INLINE_MATH_REGEXP (w :: s) = None.
Proof.
  intros Hw. unfold INLINE_MATH_REGEXP. destruct s as [|d [|c s]]; try done.
  by rewrite Hw.
Qed.

Lemma replace_inline_prefix f pre w rest :
  DOLLAR ∉ pre -> w <> DOLLAR ->
  replace INLINE_MATH_REGEXP f (pre ++ w :: rest)
  = pre ++ replace INLINE_MATH_REGEXP f (w :: rest).
Proof.
  induction pre as [|c pre IH]; [done|].
  intros [Hc Hpre]%not_elem_of_cons Hw. simpl.
  rewrite replace_keep; [by rewrite IH|].
  destruct pre as [|d pre]; simpl.
  - by apply INLINE_MATH_REGEXP_needs_dollar.
  - apply INLINE_MATH_REGEXP_needs_dollar.
    apply not_elem_of_cons in Hpre as [? _]. congruence.
Qed.

(** The first inline formula of a text is deleted, with the white space
    before it, by the second pass of [stripSplitBySections]. *)
Lemma replace_inline_deletes pre w formula post :
  DOLLAR ∉ pre -> isWhiteSpace w = true -> formula_text formula ->
  (forall c, head formula = Some c -> isWhiteSpace c = false) ->
  replace INLINE_MATH_REGEXP (fun _ _ => [])
    (pre ++ ([w; DOLLAR] ++ formula ++ [DOLLAR]) ++ post)
  = pre ++ replace INLINE_MATH_REGEXP (fun _ _ => []) post.
Proof.
  intros Hpre Hw Hf Hhead.
  change (pre ++ ([w; DOLLAR] ++ formula ++ [DOLLAR]) ++ post)
    with (pre ++ w :: ((DOLLAR :: formula ++ [DOLLAR]) ++ post)).
  rewrite replace_inline_prefix by (done || by apply isWhiteSpace_not_dollar).
  f_equal.
  rewrite (replace_match _ _ _ ([w; DOLLAR] ++ formula ++ [DOLLAR])
             formula post); [done| |done|done].
  rewrite <- (INLINE_MATH_REGEXP_matches w formula post) by done.
  f_equal. simpl. by rewrite <- app_assoc.
Qed.

(** ["the area $$ \pi r^2 $$ of a disc"] loses its formula. *)
Example replace_block_example :
  replace BLOCK_MATH_REGEXP (fun _ _ => [])
    (js "the area $$ " ++ 92 :: js "pi r^2 $$ of a disc")
  = js "the area  of a disc".
Proof. reflexivity. Qed.

Example replace_inline_example :
  replace INLINE_MATH_REGEXP (fun _ _ => []) (js "with $x+y$ inline")
  = js "with inline".
Proof. reflexivity. Qed.

Lemma block_math_tail_sound acc s p1 w :
  block_math_tail acc s = Some (p1, w) ->
  exists f rest,
    p1 = acc ++ f /\ s = f ++ [w; DOLLAR; DOLLAR] ++ rest
    /\ isWhiteSpace w = true
    /\ Forall (fun c => isLineTerminator c = false) f.
Proof.
  revert acc. induction s as [|c s IH]; intros acc; cbn [block_math_tail].
  { done. }
  destruct (isWhiteSpace c && startsWith s [DOLLAR; DOLLAR]) eqn:E.
  - intros [= <- <-]. apply andb_true_iff in E as [Hw Hs].
    apply startsWith_spec in Hs as [rest ->].
    exists [], rest. by rewrite app_nil_r.
  - destruct (isLineTerminator c) eqn:Hc; [done|].
    intros (f & rest & -> & -> & Hw & Hf)%IH.
    exists (c :: f), rest. rewrite <- app_assoc. repeat split; try done.
    by constructor.
Qed.

Lemma inline_math_tail_sound acc s p1 :
  inline_math_tail acc s = Some p1 ->
  exists f rest,
    p1 = acc ++ f /\ s = f ++ DOLLAR :: rest
    /\ Forall (fun c => isLineTerminator c = false /\ c <> DOLLAR) f.
Proof.
  revert acc. induction s as [|c s IH]; intros acc; cbn [inline_math_tail].
  { done. }
  destruct (N.eqb_spec c DOLLAR) as [->|Hc].
  - intros [= <-]. exists [], s. by rewrite app_nil_r.
  - rewrite andb_false_r. destruct (isLineTerminator c) eqn:Hl; [done|].
    intros (f & rest & -> & -> & Hf)%IH.
    exists (c :: f), rest. rewrite <- app_assoc. repeat split; try done.
    by constructor.
Qed.

(** What the block pattern answers is a prefix of the string it is tried
    on, and it is not empty. *)
Lemma BLOCK_MATH_REGEXP_prefix s matched p1 :
  BLOCK_MATH_REGEXP s = Some (matched, p1) ->
  matched <> [] /\ exists rest, s = matched ++ rest.
Proof.
  unfold BLOCK_MATH_REGEXP.
  destruct s as [|d1 [|d2 [|w [|c s]]]]; try done.
  destruct (_ && _) eqn:E; [|done].
  destruct (block_math_tail [c] s) as [[q w']|] eqn:Ht; [|done].
  intros [= <- <-]. split; [done|].
  apply block_math_tail_sound in Ht as (f & rest & -> & -> & _ & _).
  repeat (apply andb_true_iff in E as [E ?]).
  apply N.eqb_eq in E as ->. assert (d2 = DOLLAR) as -> by by apply N.eqb_eq.
  exists rest. simpl. by rewrite <- !app_assoc.
Qed.

Lemma INLINE_MATH_REGEXP_prefix s matched p1 :
  INLINE_MATH_REGEXP s = Some (matched, p1) ->
  matched <> [] /\ exists rest, s = matched ++ rest.
Proof.
  unfold INLINE_MATH_REGEXP.
  destruct s as [|w [|d [|c s]]]; try done.
  destruct (_ && _) eqn:E; [|done].
  destruct (inline_math_tail [] (c :: s)) as [q|] eqn:Ht; [|done].
  intros [= <- <-]. split; [done|].
  apply inline_math_tail_sound in Ht as (f & rest & -> & Hs & _).
  repeat (apply andb_true_iff in E as [E ?]).
  assert (d = DOLLAR) as -> by by apply N.eqb_eq.
  exists rest. simpl. rewrite Hs. by rewrite <- !app_assoc.
Qed.

(** The replacement by the empty string takes every match out, in a scan
    from the left, and keeps every other code unit. *)
Lemma replace_deletes (m : Matcher) s :
  (forall t matched p1,
     m t = Some (matched, p1) ->
     matched <> [] /\ exists rest, t = matched ++ rest) ->
  deleted m s (replace m (fun _ _ => []) s).
Proof.
  intros Hm. remember (length s) as n eqn:Hn. revert s Hn.
  induction n as [n IH] using lt_wf_ind. intros [|c s] Hn.
  { constructor. }
  destruct (m (c :: s)) as [[matched p1]|] eqn:E.
  - destruct (Hm _ _ _ E) as (Hne & rest & Hs).
    rewrite (replace_match m _ _ matched p1 rest E Hs Hne). simpl.
    apply (deleted_match m _ matched p1 rest); try done.
    apply (IH (length rest)); [|done].
    subst n. rewrite Hs, length_app. destruct matched; [done|simpl; lia].
  - rewrite replace_keep by done. apply deleted_keep; [done|].
    apply (IH (length s)); [subst n; simpl; lia|done].
Qed.

(** ** The plain-text projection *)

Lemma has_newline_run3_spec s :
  has_newline_run3 s = true <-> exists a b, s = a ++ [NL; NL; NL] ++ b.
Proof.
  split.
  - induction s as [|x s IH]; [done|].
    destruct s as [|y [|z s]]; try done.
    simpl. intros [Hxyz|Hs]%orb_true_iff.
    + apply andb_true_iff in Hxyz as [[->%N.eqb_eq ->%N.eqb_eq]%andb_true_iff
                                        ->%N.eqb_eq].
      by exists [], s.
    + destruct (IH Hs) as (a & b & Hab). exists (x :: a), b.
      by rewrite Hab.
  - intros (a & b & ->). induction a as [|x a IH]; [done|].
    simpl. destruct (a ++ NL :: NL :: NL :: b) as [|y [|z s]] eqn:E.
    + by destruct a.
    + by destruct a as [|? [|? ?]].
    + simpl in IH. rewrite E in IH. by rewrite IH, orb_true_r.
Qed.

Section StripClaims.
Context `{Collaborators}.

(** The sections joined by [join] are the text of the sections as the
    specification describes it. *)
Lemma join_sections_text sections :
  join [NL; NL]
    ((fun section => header section ++ [NL; NL] ++ content section)
       <$> sections)
  = sections_text sections.
Proof.
  induction sections as [|section rest IH]; [done|].
  destruct rest as [|next rest].
  - simpl. by rewrite app_nil_r.
  - change (sections_text (section :: next :: rest))
      with (header section ++ [NL; NL] ++ content section ++ [NL; NL]
              ++ sections_text (next :: rest)).
    rewrite <- IH. simpl. by rewrite <- !app_assoc.
Qed.

Lemma assemble_shape sections :
  exists body t,
    assemble sections = body ++ [NL]
    /\ trimmed (sections_text sections) t
    /\ body = runs_collapsed O t
    /\ last body <> Some NL
    /\ has_newline_run3 (body ++ [NL]) = false.
Proof.
  unfold assemble. rewrite join_sections_text.
  exists (collapse_newlines (trim (sections_text sections))),
    (trim (sections_text sections)).
  split; [done|]. split; [apply trim_trimmed|].
  split; [apply collapse_newlines_runs_collapsed|].
  destruct (collapse_newlines_runs (trim (sections_text sections)))
    as (H3 & _ & Hlast).
  assert (Hl : last (collapse_newlines (trim (sections_text sections)))
               <> Some NL).
  { rewrite Hlast. apply trim_last_not_NL. }
  split; [done|]. by rewrite has_newline_run3_snoc.
Qed.

(** C9.  For every input, [strip] returns.  What it returns is built from
    the sections of [stripSplitBySections]: their text, each section as
    header, blank line, content, in order and with a blank line between
    two sections; that text without the white space at its two ends; in it
    every run of three or more line feeds collapsed to one; and one line
    feed appended.  The text before the final line feed does not end in a
    line feed, and the result holds no run of three line feeds. *)
Theorem strip_output_shape markdown opts store :
  exists sections body t,
    stripSplitBySections markdown opts store = Some sections
    /\ strip markdown opts store = Some (body ++ [NL])
    /\ trimmed (sections_text sections) t
    /\ body = runs_collapsed O t
    /\ last body <> Some NL
    /\ has_newline_run3 (body ++ [NL]) = false
    /\ ~ (exists a b, body ++ [NL] = a ++ [NL; NL; NL] ++ b).
Proof.
  destruct (stripSplitBySections_total markdown opts store)
    as (sections & Hs & _).
  destruct (assemble_shape sections) as (body & t & Ha & Ht & Hb & Hl & H3).
  exists sections, body, t. split; [done|].
  split; [unfold strip; rewrite Hs; simpl; by rewrite Ha|].
  split; [done|]. split; [done|]. split; [done|]. split; [done|].
  intros Hrun%has_newline_run3_spec. congruence.
Qed.

(** The example of the specification: the tokens that marked finds in
    ["# A\n\ntext1\n\n## B\n\ntext2"] give three sections. *)
Lemma section_partitioning_example :
  stripTokens
    [Token.heading 1 [Token.text (js "A") None];
     Token.paragraph [Token.text (js "text1") None];
     Token.space [NL; NL];
     Token.heading 2 [Token.text (js "B") None];
     Token.paragraph [Token.text (js "text2") None]]
    [root_section] false
  = Some [{| header := []; depth := 0; content := [] |};
          {| header := js "A"; depth := 1; content := js "text1" |};
          {| header := js "B"; depth := 2; content := js "text2" |}].
Proof. reflexivity. Qed.

(** The text of a heading that stands in emphasis goes to the content: for
the tokens of ["# **Bold**"] the header stays empty. *)
Lemma heading_emphasis_example :
  stripTokens
    [Token.heading 1 [Token.strong [Token.text (js "Bold") None]]]
    [root_section] false
  = Some [{| header := []; depth := 0; content := [] |};
          {| header := []; depth := 1; content := js "Bold" |}].
Proof. reflexivity. Qed.

(** C3.  The sections are normalised when the next heading closes them,
    so the last one is handed out as the walk left it: for the tokens of
    ["# T\n\n- a"] the section of the heading has the content ["a\n"],
    which trimming would change. *)
Theorem stripTokens_last_section_raw :
  let tokens :=
    [Token.heading 1 [Token.text (js "T") None];
     Token.list_
       [Token.list_item
          [Token.text (js "a") (Some [Token.text (js "a") None])]]] in
  let emitted :=
    {| header := js "T"; depth := 1; content := js "a" ++ [NL] |} in
  stripTokens tokens [root_section] false = Some [root_section; emitted]
  /\ normalize (content emitted) = js "a"
  /\ normalize (content emitted) <> content emitted.
Proof. split; [reflexivity|]. split; [reflexivity|]. discriminate. Qed.

Lemma lexer_options_allowMath b opts store :
  lexer_options (with_allowMath b opts) store = lexer_options opts store.
Proof.
  unfold lexer_options, getOpts. simpl.
  by destruct (RenderOptions.renderer opts).
Qed.

(** C10, as amended.  Whatever [allowMath] is, the lexer of
    [stripSplitBySections] is given the source with every match of the
    block pattern, and then every match of the inline pattern, taken out in
    a scan from the left, every other code unit kept; [strip] does not
    depend on [allowMath] either.  What is a match: in a text with no [$]
    before it, a display formula on one line between [$$] and white space
    is a match of the block pattern, and an inline formula between [$] is
    one of the inline pattern together with the white space before it.
    The inline pattern matches nowhere but at a white space, so a formula
    with none before it is kept.  A code block whose language is [math]
    adds nothing to a section. *)
Theorem strip_deletes_math_unconditionally markdown opts store b :
  (exists t,
     deleted BLOCK_MATH_REGEXP (emojify markdown) t
     /\ deleted INLINE_MATH_REGEXP t (strip_source markdown))
  /\ stripSplitBySections markdown (with_allowMath b opts) store
     = stripTokens
         (marked_lexer (strip_source markdown) (lexer_options opts store))
         [root_section] false
  /\ strip markdown (with_allowMath b opts) store = strip markdown opts store
  /\ (forall pre w1 formula w2 post,
        DOLLAR ∉ pre ->
        isWhiteSpace w1 = true -> isWhiteSpace w2 = true ->
        formula <> [] -> formula_text formula ->
        replace BLOCK_MATH_REGEXP (fun _ _ => [])
          (pre ++ ([DOLLAR; DOLLAR; w1] ++ formula ++ [w2; DOLLAR; DOLLAR])
             ++ post)
        = pre ++ replace BLOCK_MATH_REGEXP (fun _ _ => []) post)
  /\ (forall pre w formula post,
        DOLLAR ∉ pre -> isWhiteSpace w = true -> formula_text formula ->
        (forall c, head formula = Some c -> isWhiteSpace c = false) ->
        replace INLINE_MATH_REGEXP (fun _ _ => [])
          (pre ++ ([w; DOLLAR] ++ formula ++ [DOLLAR]) ++ post)
        = pre ++ replace INLINE_MATH_REGEXP (fun _ _ => []) post)
  /\ (forall c s,
        isWhiteSpace c = false -> INLINE_MATH_REGEXP (c :: s) = None)
  /\ (forall h text i s,
        stripToken h (Token.code (Some (js "math")) text) i s = Some (i, s)).
Proof.
  assert (Hs : forall b,
             stripSplitBySections markdown (with_allowMath b opts) store
             = stripSplitBySections markdown opts store).
  { intros b'. unfold stripSplitBySections.
    by rewrite lexer_options_allowMath. }
  split.
  { eexists. split.
    - apply replace_deletes, BLOCK_MATH_REGEXP_prefix.
    - apply replace_deletes, INLINE_MATH_REGEXP_prefix. }
  split; [by rewrite Hs|]. split; [unfold strip; by rewrite Hs|].
  split; [apply replace_block_deletes|].
  split; [apply replace_inline_deletes|].
  split; [apply INLINE_MATH_REGEXP_needs_space|]. reflexivity.
Qed.

End StripClaims.

(** ** The slug registry *)


Module SlugRegistry.
Import GitHubSlugger.







Section Slug.
Context `{Collaborators}.


End Slug.
End SlugRegistry.

(** ** The renderer *)

Section RendererFacts.
Context `{Collaborators}.









(** The parts of [code] that return. *)
Lemma code_math this c language :
  Renderer.code_language language = Some (js "math") ->
  Renderer.allowMath this = true ->
  Renderer.code this c language = katex_renderToString c true.
Proof.
  intros Hl Hm. unfold Renderer.code. rewrite Hl, Hm.
  by rewrite bool_decide_eq_true_2.
Qed.

Lemma code_plain this c language :
  ~ (Renderer.code_language language = Some (js "math")
     /\ Renderer.allowMath this = true) ->
  (forall l, Renderer.code_language language = Some l ->
             Prism_languages l = None) ->
  Renderer.code this c language
  = Ok (jsq "<pre><code class='notranslate'>" ++ he_encode c
          ++ js "</code></pre>").
Proof.
  intros Hnot Hnone. unfold Renderer.code.
  destruct (bool_decide _ && _) eqn:E.
  { apply andb_true_iff in E as [E1%bool_decide_eq_true E2]. tauto. }
  destruct (Renderer.code_language language) as [l|]; [|done].
  rewrite (Hnone l eq_refl). by destruct (truthy (Some l)).
Qed.

Lemma code_returns this c language :
  ~ (Renderer.code_language language = Some (js "math")
     /\ Renderer.allowMath this = true) ->
  exists fragment, Renderer.code this c language = Ok fragment.
Proof.
  intros Hnot. unfold Renderer.code.
  destruct (bool_decide _ && _) eqn:E.
  { apply andb_true_iff in E as [E1%bool_decide_eq_true E2]. tauto. }
  destruct (Renderer.code_language language) as [l|]; [|eauto].
  destruct (truthy (Some l)); [|eauto].
  destruct (Prism_languages l); eauto.
Qed.

(** C5.  [code] hands a [math] block to KaTeX with nothing to catch what
KaTeX throws: a formula that KaTeX refuses makes [code] throw. *)
Theorem code_math_throws this c language e :
  Renderer.code_language language = Some (js "math") ->
  Renderer.allowMath this = true ->
  katex_renderToString c true = Throw e ->
  Renderer.code this c language = Throw e.
Proof. intros Hl Hm <-. by apply code_math. Qed.


End RendererFacts.

(** ** The allow-lists of [render] *)

Section RenderFacts.
Context `{Collaborators}.

(** Tags are added to the defaults. *)
Lemma allowedTags_additive opts merged t :
  t ∈ SanitizeOptions.allowedTags (sanitize_options opts merged)
  <-> t ∈ defaultAllowedTags opts \/ t ∈ RenderOptions.allowedTags opts.
Proof. simpl. apply elem_of_app. Qed.

(** What [mergeAttributes] does.  When it returns, the attributes of the
    caller stand behind the defaults of their tag and the other tags are as
    they were, and no key of the caller is an inherited property that the
    defaults lack; when it throws, it throws a TypeError, and the caller
    has such a key. *)
Lemma mergeAttributes_spec defaults customs :
  match mergeAttributes defaults customs with
  | Ok merged =>
      (forall tag,
         merged !! tag
         = match customs !! tag with
           | Some custom => Some (default [] (defaults !! tag) ++ custom)
           | None => defaults !! tag
           end)
      /\ (forall tag,
            is_Some (customs !! tag) -> defaults !! tag = None ->
            Object_prototype_has tag = false)
  | Throw e =>
      e = js "TypeError"
      /\ exists tag,
           is_Some (customs !! tag) /\ defaults !! tag = None
           /\ Object_prototype_has tag = true
  end.
Proof.
  unfold mergeAttributes.
  apply (map_fold_weak_ind
           (fun r customs =>
              match r with
              | Ok merged =>
                  (forall tag,
                     merged !! tag
                     = match customs !! tag with
                       | Some custom =>
                           Some (default [] (defaults !! tag) ++ custom)
                       | None => defaults !! tag
                       end)
                  /\ (forall tag,
                        is_Some (customs !! tag) -> defaults !! tag = None ->
                        Object_prototype_has tag = false)
              | Throw e =>
                  e = js "TypeError"
                  /\ exists tag,
                       is_Some (customs !! tag) /\ defaults !! tag = None
                       /\ Object_prototype_has tag = true
              end)).
  - split; [intros tag; by rewrite lookup_empty|].
    intros tag [? Htag]. by rewrite lookup_empty in Htag.
  - intros k custom m [merged|e] Hk IH; unfold merge_tag.
    + destruct IH as [Hlook Hown].
      pose proof (Hlook k) as Hmk. rewrite Hk in Hmk. rewrite Hmk.
      destruct (defaults !! k) as [own|] eqn:Hd.
      * split.
        -- intros tag. destruct (decide (k = tag)) as [<-|Hne].
           ++ by rewrite !lookup_insert_eq, Hd.
           ++ rewrite !lookup_insert_ne by done. apply Hlook.
        -- intros tag [? Htag] Hnone.
           destruct (decide (k = tag)) as [<-|Hne]; [congruence|].
           rewrite lookup_insert_ne in Htag by done. apply Hown; [|done].
           by eexists.
      * destruct (Object_prototype_has k) eqn:Hp.
        -- split; [done|]. exists k. rewrite lookup_insert_eq.
           split; [by eexists|done].
        -- split.
           ++ intros tag. destruct (decide (k = tag)) as [<-|Hne].
              ** by rewrite !lookup_insert_eq, Hd.
              ** rewrite !lookup_insert_ne by done. apply Hlook.
           ++ intros tag [? Htag] Hnone.
              destruct (decide (k = tag)) as [<-|Hne]; [done|].
              rewrite lookup_insert_ne in Htag by done. apply Hown; [|done].
              by eexists.
    + destruct IH as [-> (tag & [? Htag] & Hnone & Hp)]. split; [done|].
      exists tag. split; [|done].
      destruct (decide (k = tag)) as [<-|Hne]; [congruence|].
      rewrite lookup_insert_ne by done. by eexists.
Qed.

(** [mergeAttributes] adds the attributes of the caller behind the defaults
    of the tag, and leaves the other tags as they are. *)
Lemma mergeAttributes_lookup defaults customs merged tag :
  mergeAttributes defaults customs = Ok merged ->
  merged !! tag
  = match customs !! tag with
    | Some custom => Some (default [] (defaults !! tag) ++ custom)
    | None => defaults !! tag
    end.
Proof.
  intros Hm. pose proof (mergeAttributes_spec defaults customs) as Hs.
  rewrite Hm in Hs. apply Hs.
Qed.

(** [mergeAttributes] returns when no key of the caller is an inherited
    property that the defaults lack. *)
Lemma mergeAttributes_returns defaults customs :
  (forall tag,
     is_Some (customs !! tag) -> defaults !! tag = None ->
     Object_prototype_has tag = false) ->
  exists merged, mergeAttributes defaults customs = Ok merged.
Proof.
  intros Hown. pose proof (mergeAttributes_spec defaults customs) as Hs.
  destruct (mergeAttributes defaults customs) as [merged|e]; [by eexists|].
  destruct Hs as [_ (tag & Htag & Hnone & Hp)].
  rewrite (Hown tag Htag Hnone) in Hp. done.
Qed.

Lemma allowedAttributes_additive opts merged tag :
  mergeAttributes (defaultAllowedAttributes opts)
    (RenderOptions.allowedAttributes opts) = Ok merged ->
  SanitizeOptions.allowedAttributes (sanitize_options opts merged) !! tag
  = match RenderOptions.allowedAttributes opts !! tag with
    | Some custom =>
        Some (default [] (defaultAllowedAttributes opts !! tag) ++ custom)
    | None => defaultAllowedAttributes opts !! tag
    end.
Proof. apply mergeAttributes_lookup. Qed.

(** C2.  The classes of the caller are spread over the defaults: for a tag
that the caller names, the entry of the caller stands alone and the default
classes of that tag are gone, where the union would keep both. *)
Theorem allowedClasses_spread_replaces opts merged tag custom defaults :
  RenderOptions.allowedClasses opts !! tag = Some (ClassesList custom) ->
  defaultAllowedClasses opts !! tag = Some (ClassesList defaults) ->
  defaults <> [] ->
  exists resolved,
    SanitizeOptions.allowedClasses (sanitize_options opts merged)
    = Some resolved
    /\ resolved !! tag = Some (ClassesList custom)
    /\ resolved !! tag
       <> union_of_classes (defaultAllowedClasses opts !! tag)
            (RenderOptions.allowedClasses opts !! tag).
Proof.
  intros Hc Hd Hne. eexists. split; [reflexivity|].
  assert ((RenderOptions.allowedClasses opts ∪ defaultAllowedClasses opts)
            !! tag = Some (ClassesList custom)) as Hl.
  { by apply lookup_union_Some_l. }
  split; [done|]. rewrite Hl, Hc, Hd. simpl.
  intros [= Heq]. apply (f_equal length) in Heq.
  rewrite length_app in Heq. destruct defaults; [done|simpl in Heq; lia].
Qed.

Lemma not_in_names (t : jsstring) (l : list jsstring) :
  bool_decide (t ∈ l) = false -> t ∉ l.
Proof. by intros ?%bool_decide_eq_false. Qed.

(** The three tags that carry code or frames are in the defaults of
[render] only when the sanitizer's own defaults have them, or, for [iframe],
when [allowIframes] is set. *)
Lemma defaultAllowedTags_code_tags opts t :
  t ∈ [js "script"; js "style"; js "iframe"] ->
  t ∈ defaultAllowedTags opts ->
  t ∈ sanitizeHtml_defaults_allowedTags
  \/ (t = js "iframe" /\ RenderOptions.allowIframes opts = true).
Proof.
  intros Ht. unfold defaultAllowedTags.
  set (added := js <$> ["img"; "video"; "svg"; "path"; "circle"; "figure";
                        "figcaption"; "del"; "details"; "summary"; "input"]).
  set (math := js <$> ["math"; "maction"; "annotation"; "annotation-xml";
                       "menclose"; "merror"; "mfenced"; "mfrac"; "mi";
                       "mmultiscripts"; "mn"; "mo"; "mover"; "mpadded";
                       "mphantom"; "mprescripts"; "mroot"; "mrow"; "ms";
                       "semantics"; "mspace"; "msqrt"; "mstyle"; "msub";
                       "msup"; "msubsup"; "mtable"; "mtd"; "mtext"; "mtr"]).
  assert (Hadded : t ∉ added).
  { repeat (apply elem_of_cons in Ht as [->|Ht]);
      [apply not_in_names; by vm_compute..|by apply elem_of_nil in Ht]. }
  assert (Hmath : t ∉ math).
  { repeat (apply elem_of_cons in Ht as [->|Ht]);
      [apply not_in_names; by vm_compute..|by apply elem_of_nil in Ht]. }
  destruct (RenderOptions.allowMath opts), (RenderOptions.allowIframes opts);
    rewrite ?elem_of_app, ?list_elem_of_singleton; intros Hin;
    intuition auto.
Qed.

Lemma render_sanitized markdown opts store out opts' store' :
  RenderOptions.disableHtmlSanitization opts = false ->
  render markdown opts store = (Ok out, opts', store') ->
  exists html merged,
    (render_html markdown opts store).1 = Ok html
    /\ mergeAttributes (defaultAllowedAttributes opts)
         (RenderOptions.allowedAttributes opts) = Ok merged
    /\ out = sanitizeHtml html
               (sanitize_options (fill_mediaBaseUrl opts) merged).
Proof.
  intros Hs. unfold render.
  destruct (render_html markdown opts store) as [[html|e] s]; [|done].
  cbn [fill_mediaBaseUrl RenderOptions.disableHtmlSanitization
       RenderOptions.allowedAttributes]. rewrite Hs.
  change (defaultAllowedAttributes (fill_mediaBaseUrl opts))
    with (defaultAllowedAttributes opts).
  destruct (mergeAttributes _ _) as [merged|e]; [|done].
  intros [= <- _ _]. by exists html, merged.
Qed.

Lemma render_unsanitized markdown opts store out opts' store' :
  RenderOptions.disableHtmlSanitization opts = true ->
  render markdown opts store = (Ok out, opts', store') ->
  (render_html markdown opts store).1 = Ok out.
Proof.
  intros Hs. unfold render.
  destruct (render_html markdown opts store) as [[html|e] s]; [|done].
  cbn [fill_mediaBaseUrl RenderOptions.disableHtmlSanitization]. rewrite Hs.
  by intros [= <- _ _].
Qed.

(** C1, as amended.  With the sanitization on, what [render] returns holds no
tag, attribute or class outside the resolved allow-lists; its tags are
default tags or tags the caller added; and it holds no [script], no [style]
and, with [allowIframes] off, no [iframe], unless the caller added that tag
to [allowedTags]. *)
Theorem render_within_allow_lists tags_of outside
    markdown opts store out opts' store' :
  sanitizer_contract tags_of outside ->
  (forall t, t ∈ [js "script"; js "style"; js "iframe"] ->
             t ∉ sanitizeHtml_defaults_allowedTags) ->
  RenderOptions.disableHtmlSanitization opts = false ->
  render markdown opts store = (Ok out, opts', store') ->
  (exists merged,
     mergeAttributes (defaultAllowedAttributes opts)
       (RenderOptions.allowedAttributes opts) = Ok merged
     /\ ~ outside (sanitize_options (fill_mediaBaseUrl opts) merged) out)
  /\ (forall t, t ∈ tags_of out ->
                t ∈ defaultAllowedTags opts
                \/ t ∈ RenderOptions.allowedTags opts)
  /\ (forall t, t ∈ [js "script"; js "style"; js "iframe"] ->
                t ∉ RenderOptions.allowedTags opts ->
                (t = js "iframe" -> RenderOptions.allowIframes opts = false) ->
                t ∉ tags_of out).
Proof.
  intros [Hsound Htag] Hdefaults Hs Hr.
  destruct (render_sanitized _ _ _ _ _ _ Hs Hr)
    as (html & merged & _ & Hm & ->).
  set (o := sanitize_options (fill_mediaBaseUrl opts) merged).
  assert (Hin : forall t,
             t ∈ tags_of (sanitizeHtml html o) ->
             t ∈ defaultAllowedTags opts
             \/ t ∈ RenderOptions.allowedTags opts).
  { intros t Ht.
    destruct (decide (t ∈ SanitizeOptions.allowedTags o)) as [Hal|Hal].
    - by apply elem_of_app in Hal.
    - destruct (Hsound html o). by eapply Htag. }
  split; [exists merged; split; [done|apply Hsound]|]. split; [done|].
  intros t Ht Hcaller Hiframe Hout.
  destruct (Hin t Hout) as [Hd|Hc]; [|done].
  destruct (defaultAllowedTags_code_tags opts t Ht Hd) as [Hd'|[-> Hi]].
  - by apply (Hdefaults t Ht).
  - specialize (Hiframe eq_refl). congruence.
Qed.


(** C8, as amended.  [transformMedia] is the transformer of [img] and
[video].  With a media base URL configured, a [src] that is not empty is
replaced by its resolution against the base, and removed when the resolution
throws; the tag name stays and nothing is thrown. *)
Theorem transformMedia_rewrites_src opts merged tagName attribs base src :
  RenderOptions.mediaBaseUrl opts = Some base -> base <> [] ->
  attribs !! js "src" = Some src -> src <> [] ->
  transformMedia opts tagName attribs
  = (tagName,
     match URL_href src base with
     | Ok resolved => <[js "src" := resolved]> attribs
     | Throw _ => delete (js "src") attribs
     end)
  /\ SanitizeOptions.transformTags (sanitize_options opts merged)
     = [(js "img", transformMedia opts); (js "video", transformMedia opts)].
Proof.
  intros Hb Hbne Hs Hsne. split; [|reflexivity].
  unfold transformMedia. rewrite Hb, Hs. simpl.
  destruct base; [done|]. destruct src; [done|]. simpl.
  by destruct (URL_href _ _).
Qed.

End RenderFacts.

(** ** The claims on concrete inputs *)

Section Examples.
Import Standin Inputs.
Local Existing Instance Standin.collaborators.

Lemma drop_tags_no_tag inside s :
  Forall (fun c => c <> 60) (drop_tags inside s).
Proof.
  revert inside. induction s as [|c s IH]; intros inside; simpl; [done|].
  destruct (N.eqb_spec c 60); [apply IH|].
  destruct inside; [apply IH|]. constructor; [done|apply IH].
Qed.

Lemma tags_of_no_tag s : Forall (fun c => c <> 60) s -> tags_of s = [].
Proof.
  induction 1 as [|c s Hc _ IH]; simpl; [done|].
  by destruct (N.eqb_spec c 60).
Qed.

Lemma filter_no_tag (f : N -> bool) s :
  Forall (fun c => c <> 60) s -> Forall (fun c => c <> 60) (List.filter f s).
Proof.
  induction 1 as [|c s Hc _ IH]; simpl; [done|].
  destruct (f c); [by constructor|done].
Qed.



(** The stand-in sanitizer keeps the two contracts. *)
Lemma standin_sanitizer_contract : sanitizer_contract tags_of outside.
Proof.
  split.
  - intros html o (t & Ht & Hout). simpl in Ht. unfold sanitize in Ht.
    destruct (forallb _ _ && _) eqn:E.
    + apply andb_true_iff in E as [E _].
      rewrite forallb_forall in E. apply list_elem_of_In, E in Ht.
      by apply bool_decide_eq_true in Ht.
    + rewrite tags_of_no_tag in Ht
        by apply filter_no_tag, drop_tags_no_tag.
      by apply elem_of_nil in Ht.
  - intros o s t Ht Hout. by exists t.
Qed.


Lemma standin_defaults_hold_no_code_tag t :
  t ∈ [js "script"; js "style"; js "iframe"] ->
  t ∉ sanitizeHtml_defaults_allowedTags.
Proof.
  intros Ht.
  repeat (apply elem_of_cons in Ht as [->|Ht]);
    [apply not_in_names; by vm_compute..|by apply elem_of_nil in Ht].
Qed.

Lemma render_within_allow_lists_witness :
  RenderOptions.disableHtmlSanitization no_options = false
  /\ render script_document no_options []
     = (Ok (js "alert(1)"), fill_mediaBaseUrl no_options,
        (render script_document no_options []).2)
  /\ js "script" ∉ tags_of (js "alert(1)").
Proof.
  assert (Hr : render script_document no_options []
               = (Ok (js "alert(1)"), fill_mediaBaseUrl no_options,
                  (render script_document no_options []).2))
    by (vm_compute; reflexivity).
  split; [reflexivity|]. split; [exact Hr|].
  refine (proj2 (proj2 (render_within_allow_lists tags_of outside
                          script_document no_options [] (js "alert(1)") _ _
                          standin_sanitizer_contract
                          standin_defaults_hold_no_code_tag eq_refl Hr))
            (js "script") _ _ _).
  - apply elem_of_cons. by left.
  - apply not_elem_of_nil.
  - discriminate.
Defined.

(** C1 as it is worded fails: a caller who adds [script] to [allowedTags]
gets the [script] tag of the document in the output, with the sanitization
on. *)
Lemma script_survives_when_allowed :
  sanitizer_contract tags_of outside
  /\ RenderOptions.disableHtmlSanitization allow_script = false
  /\ RenderOptions.allowIframes allow_script = false
  /\ render script_document allow_script []
     = (Ok script_document, fill_mediaBaseUrl allow_script,
        (render script_document allow_script []).2)
  /\ js "script" ∈ tags_of script_document.
Proof.
  split; [apply standin_sanitizer_contract|].
  split; [reflexivity|]. split; [reflexivity|].
  split; [vm_compute; reflexivity|].
  vm_compute. apply elem_of_cons. by left.
Qed.

Lemma allowedClasses_spread_replaces_witness :
  defaultAllowedClasses custom_div_class !! js "div"
  = Some (classes (js <$> ["highlight"; "highlight-source-*"; "notranslate";
                           "markdown-alert"; "markdown-alert-*"]))
  /\ exists resolved,
       SanitizeOptions.allowedClasses
         (sanitize_options custom_div_class
            (defaultAllowedAttributes custom_div_class))
       = Some resolved
       /\ resolved !! js "div" = Some (classes [js "custom"])
       /\ resolved !! js "div"
          <> union_of_classes
               (defaultAllowedClasses custom_div_class !! js "div")
               (RenderOptions.allowedClasses custom_div_class !! js "div").
Proof.
  split; [vm_compute; reflexivity|].
  apply (allowedClasses_spread_replaces custom_div_class
           (defaultAllowedAttributes custom_div_class) (js "div")
           [ClassGlob (js "custom")]
           (ClassGlob <$> (js <$> ["highlight"; "highlight-source-*";
                                   "notranslate"; "markdown-alert";
                                   "markdown-alert-*"]))).
  - vm_compute; reflexivity.
  - vm_compute; reflexivity.
  - discriminate.
Defined.



Lemma code_math_throws_witness :
  Renderer.code_language (Some (js "math")) = Some (js "math")
  /\ katex_renderToString invalid_formula true = Throw (js "ParseError")
  /\ Renderer.code (Renderer.new (with_allowMath true no_options))
       invalid_formula (Some (js "math"))
     = Throw (js "ParseError").
Proof.
  split; [reflexivity|]. split; [reflexivity|].
  apply (code_math_throws (Renderer.new (with_allowMath true no_options))
           invalid_formula (Some (js "math")) (js "ParseError"));
    reflexivity.
Defined.



Lemma transformMedia_rewrites_src_witness :
  RenderOptions.mediaBaseUrl media_base = Some (js "https://example.com/")
  /\ transformMedia media_base (js "img") {[ js "src" := js "a.png" ]}
     = (js "img", {[ js "src" := js "https://example.com/a.png" ]}).
Proof.
  split; [reflexivity|].
  rewrite (proj1 (transformMedia_rewrites_src media_base empty (js "img")
                    {[ js "src" := js "a.png" ]}
                    (js "https://example.com/") (js "a.png")
                    eq_refl ltac:(discriminate)
                    ltac:(vm_compute; reflexivity) ltac:(discriminate))).
  vm_compute. reflexivity.
Defined.

(** C8 as it is worded fails: an [img] with an empty [src] carries a [src],
the resolution of the empty string against the base gives the base, and
[transformMedia] leaves the empty [src] where it is. *)
Lemma empty_src_is_not_rewritten :
  RenderOptions.mediaBaseUrl media_base = Some (js "https://example.com/")
  /\ ({[ js "src" := [] ]} : Attributes) !! js "src" = Some []
  /\ URL_href [] (js "https://example.com/") = Ok (js "https://example.com/")
  /\ transformMedia media_base (js "img") {[ js "src" := [] ]}
     = (js "img", {[ js "src" := [] ]})
  /\ transformMedia media_base (js "img") {[ js "src" := [] ]}
     <> (js "img", <[ js "src" := js "https://example.com/" ]>
                     {[ js "src" := [] ]}).
Proof.
  split; [reflexivity|]. split; [vm_compute; reflexivity|].
  split; [reflexivity|]. split; [vm_compute; reflexivity|].
  vm_compute. discriminate.
Qed.

(** C10 as it is worded fails: an inline formula with no white space before
it, here one that opens the text, is no match of the inline pattern; it is
handed to the lexer and reaches the plain text, whatever [allowMath] is. *)
Lemma formula_at_the_start_survives :
  strip_source formula_at_the_start = formula_at_the_start
  /\ strip formula_at_the_start no_options []
     = Some (formula_at_the_start ++ [NL])
  /\ strip formula_at_the_start (with_allowMath true no_options) []
     = Some (formula_at_the_start ++ [NL])
  /\ includes (formula_at_the_start ++ [NL]) (js "$x$") = true.
Proof. repeat split; vm_compute; reflexivity. Qed.

End Examples.
(** * More properties of the module *)

(** ** Strings *)

Lemma not_elem_of_decide {A : Type} `{EqDecision A} (x : A) (l : list A) :
  bool_decide (x ∈ l) = false -> x ∉ l.
Proof. by intros ?%bool_decide_eq_false. Qed.

(** ** The math patterns and [mathify] *)

(** Where the matcher never succeeds, the string is left as it is. *)
Lemma replace_no_match (m : Matcher) f s :
  (forall pre t, s = pre ++ t -> m t = None) -> replace m f s = s.
Proof.
  induction s as [|c s IH]; intros Hm; [done|].
  rewrite replace_keep by (by apply (Hm [])). f_equal.
  apply IH. intros pre t ->. by apply (Hm (c :: pre)).
Qed.

Lemma math_opening_app pre t :
  math_opening (pre ++ t) = false -> math_opening t = false.
Proof.
  induction pre as [|c pre IH]; [done|]. simpl.
  destruct (pre ++ t) as [|d r] eqn:E; [|].
  - destruct pre; [|done]. simpl in E. by subst.
  - intros [_ Hr]%orb_false_iff. by apply IH.
Qed.

Lemma math_opening_no_match t :
  math_opening t = false ->
  BLOCK_MATH_REGEXP t = None /\ INLINE_MATH_REGEXP t = None.
Proof.
  destruct t as [|c [|d t]]; try done.
  cbn [math_opening]. intros [Hc _]%orb_false_iff.
  unfold BLOCK_MATH_REGEXP, INLINE_MATH_REGEXP.
  destruct (N.eqb_spec d DOLLAR) as [->|Hd].
  - rewrite andb_true_r in Hc. apply orb_false_iff in Hc as [-> ->].
    split; [by destruct t as [|? [|? ?]]|by destruct t].
  - rewrite !andb_false_r. simpl.
    split; [by destruct t as [|? [|? ?]]|by destruct t].
Qed.

(** X1.  [mathify] leaves alone a text in which no [$] stands behind a white
    space or another [$], whatever KaTeX would make of it: an inline formula
    that opens the text is not rendered. *)
Theorem mathify_without_opening `{Collaborators} (markdown : jsstring) :
  math_opening markdown = false -> mathify markdown = markdown.
Proof.
  intros Hm. unfold mathify.
  rewrite (replace_no_match BLOCK_MATH_REGEXP).
  - apply replace_no_match. intros pre t ->.
    by apply math_opening_no_match, (math_opening_app pre).
  - intros pre t ->.
    by apply math_opening_no_match, (math_opening_app pre).
Qed.

Lemma BLOCK_MATH_REGEXP_second c d s :
  d <> DOLLAR -> BLOCK_MATH_REGEXP (c :: d :: s) = None.
Proof.
  intros Hd. unfold BLOCK_MATH_REGEXP. destruct s as [|? [|? ?]]; try done.
  destruct (N.eqb_spec d DOLLAR); [done|]. by rewrite andb_false_r.
Qed.

Lemma replace_without_opening (m : Matcher) f s :
  m = BLOCK_MATH_REGEXP \/ m = INLINE_MATH_REGEXP ->
  math_opening s = false -> replace m f s = s.
Proof.
  intros Hm Hs. apply replace_no_match. intros pre t ->.
  apply math_opening_app, math_opening_no_match in Hs.
  destruct Hm as [->| ->]; apply Hs.
Qed.


(** X4.  In a text with no [$] before it and no math opening behind it, an
    inline formula, [$formula$] behind a white space, is replaced by what
    KaTeX makes of it in inline mode, and the white space before it, a line
    feed as well, by one space, when the result holds no math opening. *)
Theorem mathify_inline_formula `{Collaborators}
    (pre formula post rendered : jsstring) (w : N) :
  DOLLAR ∉ pre -> isWhiteSpace w = true ->
  formula <> [] -> formula_text formula ->
  (forall c, head formula = Some c -> isWhiteSpace c = false) ->
  katex_renderToString formula false = Ok rendered ->
  math_opening (DOLLAR :: post) = false ->
  math_opening (pre ++ js " " ++ rendered ++ post) = false ->
  mathify (pre ++ ([w; DOLLAR] ++ formula ++ [DOLLAR]) ++ post)
  = pre ++ js " " ++ rendered ++ post.
Proof.
  intros Hpre Hw Hne Hf Hhead Hk Hpost Hout. unfold mathify.
  assert (Hblock : forall f s,
            s = pre ++ ([w; DOLLAR] ++ formula ++ [DOLLAR]) ++ post ->
            replace BLOCK_MATH_REGEXP f s = s).
  { intros f s ->.
    change (pre ++ ([w; DOLLAR] ++ formula ++ [DOLLAR]) ++ post)
      with (pre ++ [w] ++ DOLLAR :: (formula ++ [DOLLAR]) ++ post).
    rewrite app_assoc. rewrite replace_block_prefix.
    2:{ apply not_elem_of_app. split; [done|].
        apply not_elem_of_cons. split; [|apply not_elem_of_nil].
        intros E. apply (isWhiteSpace_not_dollar w Hw). done. }
    f_equal. destruct formula as [|c formula]; [done|].
    apply Forall_cons in Hf as [[_ Hc] Hf].
    rewrite replace_keep by (by apply BLOCK_MATH_REGEXP_second).
    f_equal. rewrite <- app_assoc.
    change ((c :: formula) ++ [DOLLAR] ++ post)
      with ((c :: formula) ++ DOLLAR :: post).
    rewrite replace_block_prefix.
    2:{ apply not_elem_of_cons. split; [done|].
        intros E. rewrite Forall_forall in Hf. by destruct (Hf _ E). }
    f_equal. by apply replace_without_opening; [left|]. }
  rewrite Hblock by done.
  change (pre ++ ([w; DOLLAR] ++ formula ++ [DOLLAR]) ++ post)
    with (pre ++ w :: ((DOLLAR :: formula ++ [DOLLAR]) ++ post)).
  rewrite replace_inline_prefix by (done || by apply isWhiteSpace_not_dollar).
  f_equal.
  rewrite (replace_match _ _ _ ([w; DOLLAR] ++ formula ++ [DOLLAR])
             formula post); [| |done|done].
  - rewrite Hk. rewrite <- app_assoc. do 2 f_equal.
    apply replace_without_opening; [by right|].
    rewrite !app_assoc in Hout. by apply math_opening_app in Hout.
  - rewrite <- (INLINE_MATH_REGEXP_matches w formula post) by done.
    f_equal. simpl. by rewrite <- app_assoc.
Qed.




(** X6.  What the inline pattern matches: one white space, [$], a formula
    with no [$] and no line terminator that does not open with a white
    space, [$].  A formula that opens the text has no white space before it
    and is no match. *)
Theorem INLINE_MATH_REGEXP_match_shape (s matched p1 : jsstring) :
  INLINE_MATH_REGEXP s = Some (matched, p1) ->
  exists w rest,
    s = matched ++ rest
    /\ matched = [w; DOLLAR] ++ p1 ++ [DOLLAR]
    /\ isWhiteSpace w = true
    /\ formula_text p1
    /\ (forall c, head p1 = Some c -> isWhiteSpace c = false).
Proof.
  unfold INLINE_MATH_REGEXP.
  destruct s as [|w [|d [|c s]]]; try done.
  destruct (_ && _) eqn:E; [|done].
  destruct (inline_math_tail [] (c :: s)) as [q|] eqn:Ht; [|done].
  intros [= <- <-].
  apply inline_math_tail_sound in Ht as (f & rest & -> & Hs & Hf).
  apply andb_true_iff in E as [E Hc].
  apply andb_true_iff in E as [Hw ->%N.eqb_eq].
  apply negb_true_iff in Hc.
  exists w, rest. simpl. rewrite Hs, <- !app_assoc.
  repeat split; try done.
  intros c' Hc'. destruct f as [|c'' f]; [done|].
  simpl in Hs, Hc'. by injection Hs as <- _; injection Hc' as <-.
Qed.

(** ** The source text of the plain-text path *)

(** X7.  [stripSplitBySections] takes nothing out of a text in which no [$]
    stands behind a white space or another [$]: the lexer gets the text as
    [emojify] left it. *)
Theorem strip_source_without_opening `{Collaborators} (markdown : jsstring) :
  math_opening (emojify markdown) = false ->
  strip_source markdown = emojify markdown.
Proof.
  intros Hm. unfold strip_source.
  rewrite (replace_without_opening BLOCK_MATH_REGEXP); [|by left|done].
  by apply replace_without_opening; [right|].
Qed.

(** ** The hook on [html] tokens *)

Lemma replace_first_indexOf p r s k :
  indexOf s p = Some k ->
  replace_first p r s = take k s ++ r ++ drop (k + length p) s.
Proof.
  revert k. induction s as [|c s IH]; intros k.
  - cbn [indexOf replace_first]. destruct (startsWith [] p); [|done].
    by intros [= <-].
  - cbn [indexOf replace_first]. destruct (startsWith (c :: s) p).
    + by intros [= <-].
    + destruct (indexOf s p) as [k'|]; [|done]. intros [= <-].
      by rewrite (IH k').
Qed.

Lemma endsWith_app_r x s p :
  endsWith s p = true -> endsWith (x ++ s) p = true.
Proof.
  unfold endsWith. rewrite !startsWith_spec, reverse_app.
  intros [rest ->]. exists (rest ++ reverse x). by rewrite app_assoc.
Qed.

Lemma endsWith_self x p : endsWith (x ++ p) p = true.
Proof.
  apply endsWith_app_r. unfold endsWith. apply startsWith_spec.
  exists []. by rewrite app_nil_r.
Qed.

(** X8.  On an [html] token that ends with [</summary>] and a blank line, the
    hook takes one line feed from the first [</summary>] with a blank line
    that the text holds.  When that one is the end of the text, the token
    ends with [</summary>] and one line feed; when it stands earlier, the
    end of the text keeps its blank line. *)
Theorem walkTokens_shortens_first_summary (pre post : jsstring) :
  indexOf (pre ++ (js "</summary>" ++ [NL; NL]) ++ post)
    (js "</summary>" ++ [NL; NL]) = Some (length pre) ->
  post = [] \/ endsWith post (js "</summary>" ++ [NL; NL]) = true ->
  walkTokens (Token.html (pre ++ (js "</summary>" ++ [NL; NL]) ++ post))
  = Token.html (pre ++ (js "</summary>" ++ [NL]) ++ post)
  /\ (post <> [] ->
      endsWith (pre ++ (js "</summary>" ++ [NL]) ++ post)
        (js "</summary>" ++ [NL; NL]) = true).
Proof.
  intros Hfirst Hpost.
  set (closing := js "</summary>" ++ [NL; NL]) in *.
  assert (Hend : endsWith (pre ++ closing ++ post) closing = true).
  { destruct Hpost as [-> | Hpost].
    - rewrite app_nil_r. apply endsWith_self.
    - rewrite app_assoc. by apply endsWith_app_r. }
  split.
  - unfold walkTokens. fold closing. rewrite Hend.
    rewrite (replace_first_indexOf _ _ _ _ Hfirst).
    rewrite take_app_length. do 3 f_equal.
    rewrite <- drop_drop, drop_app_length. apply drop_app_length.
  - intros Hne. destruct Hpost as [-> | Hpost]; [done|].
    rewrite app_assoc. by apply endsWith_app_r.
Qed.

(** ** The tokenizer of the plain-text path *)

Lemma replace_line_feeds s :
  replace StripTokenizer.LINE_FEED_REGEXP (fun _ _ => js " ") s
  = (fun c => if c =? NL then 32 else c) <$> s.
Proof.
  induction s as [|c s IH]; [done|].
  destruct (N.eqb_spec c NL) as [->|Hc].
  - rewrite (replace_match _ _ _ [NL] [] s); [|done..].
    simpl. by rewrite IH.
  - rewrite replace_keep.
    + simpl. destruct (N.eqb_spec c NL); [done|]. by rewrite IH.
    + simpl. by destruct (N.eqb_spec c NL).
Qed.

Lemma endsWith_snoc s c d : endsWith (s ++ [c]) [d] = (d =? c).
Proof.
  unfold endsWith. rewrite reverse_snoc. simpl. apply andb_true_r.
Qed.

Lemma existsb_not_space s :
  existsb (fun c => negb (c =? 32)) s = false <-> Forall (fun c => c = 32) s.
Proof.
  induction s as [|c s IH]; simpl.
  - split; [constructor|done].
  - rewrite orb_false_iff, IH, negb_false_iff, N.eqb_eq.
    split; [intros [? ?]; by constructor|by inversion 1].
Qed.

(** X9.  The text of a code span in the plain-text path: every line feed is
    a space; one space is taken from each end when there is one at both
    ends and the span is not made of spaces only; otherwise the text is
    left as it is. *)
Theorem codespan_text_strips_one_space (cap2 : jsstring) :
  let text := fmap (fun c => if c =? NL then 32 else c) cap2 in
  (NL ∉ StripTokenizer.codespan_text cap2)
  /\ (Forall (fun c => c = 32) text ->
      StripTokenizer.codespan_text cap2 = text)
  /\ (forall inner,
        text = 32 :: inner ++ [32] -> ~ Forall (fun c => c = 32) inner ->
        StripTokenizer.codespan_text cap2 = inner)
  /\ (head text <> Some 32 \/ last text <> Some 32 ->
      StripTokenizer.codespan_text cap2 = text).
Proof.
  intros text. unfold StripTokenizer.codespan_text.
  rewrite replace_line_feeds. fold text.
  assert (Hnl : NL ∉ text).
  { subst text. intros (c & Hc & _)%list_elem_of_fmap.
    by destruct (N.eqb_spec c NL). }
  split; [|split; [|split]].
  - destruct (_ && _); [|done].
    intros Hin. apply Hnl.
    eapply elem_of_sublist; [exact Hin|].
    etrans; [apply sublist_take|apply sublist_drop].
  - intros Hall. apply existsb_not_space in Hall. by rewrite Hall.
  - intros inner E Hinner. rewrite E.
    assert (existsb (fun c => negb (c =? 32)) (32 :: inner ++ [32]) = true)
      as ->.
    { destruct (existsb _ _) eqn:Ex; [done|].
      apply existsb_not_space in Ex. destruct Hinner.
      apply Forall_cons in Ex as [_ Ex]. by apply Forall_app in Ex as [? _]. }
    change (js " ") with [32].
    change (endsWith (32 :: inner ++ [32]) [32])
      with (endsWith ((32 :: inner) ++ [32]) [32]).
    rewrite endsWith_snoc. cbn [startsWith andb N.eqb Pos.eqb drop].
    replace (length (32%N :: inner ++ [32%N]) - 1 - 1)%nat
      with (length inner)
      by (simpl; rewrite length_app; simpl; lia).
    apply take_app_length.
  - intros Hends.
    destruct (existsb _ text); [|done]. cbn [andb].
    destruct (startsWith text (js " ")) eqn:Hs; [|done].
    destruct (endsWith text (js " ")) eqn:He; [|done].
    exfalso. destruct Hends as [Hh|Hl].
    + apply Hh. apply startsWith_spec in Hs as [rest ->]. done.
    + apply Hl. destruct text as [|c t] using rev_ind; [done|].
      change (js " ") with [32] in He.
      rewrite endsWith_snoc in He. apply N.eqb_eq in He as <-.
      by rewrite last_snoc.
Qed.

(** ** The sections of a token tree *)

Lemma append_keeps_depths h x index sections :
  (index < length sections)%nat ->
  exists sections',
    append h x index sections = Some sections'
    /\ depth <$> sections' = depth <$> sections.
Proof.
  intros Hi. destruct (lookup_lt_is_Some_2 _ _ Hi) as [s Hs].
  unfold append. rewrite Hs. simpl. eexists. split; [done|].
  rewrite list_fmap_insert. apply list_insert_id.
  rewrite list_lookup_fmap, Hs. by destruct h.
Qed.

Lemma open_section_depths d index sections :
  (index < length sections)%nat ->
  exists sections',
    open_section d index sections = Some (S index, sections')
    /\ depth <$> sections' = (depth <$> sections) ++ [d].
Proof.
  intros Hi. destruct (lookup_lt_is_Some_2 _ _ Hi) as [s Hs].
  unfold open_section. rewrite Hs. simpl. eexists. split; [done|].
  rewrite fmap_app, list_fmap_insert. f_equal. apply list_insert_id.
  by rewrite list_lookup_fmap, Hs.
Qed.

Lemma depths_length (s s' : list MarkdownSections) l :
  depth <$> s' = (depth <$> s) ++ l ->
  length s' = (length s + length l)%nat.
Proof.
  intros E. apply (f_equal length) in E.
  by rewrite length_app, !length_fmap in E.
Qed.

Lemma heading_depths_heading token :
  is_heading token = true -> heading_depths token <> [].
Proof. by destruct token. Qed.

Lemma headings_of_app l1 l2 :
  headings_of (l1 ++ l2) = headings_of l1 ++ headings_of l2.
Proof.
  induction l1 as [|t l1 IH]; simpl; [done|]. by rewrite IH, app_assoc.
Qed.

Lemma headings_of_cells_concat l :
  headings_of_cells l = headings_of (concat l).
Proof.
  induction l as [|c l IH]; simpl; [done|]. by rewrite headings_of_app, IH.
Qed.

Lemma headings_of_rows_concat l :
  headings_of_rows l = headings_of (concat (concat l)).
Proof.
  induction l as [|r l IH]; simpl; [done|].
  by rewrite concat_app, headings_of_app, IH, headings_of_cells_concat.
Qed.

(** The headings of a token: the token when it is a heading, then the
    headings of the tokens below it. *)
Lemma heading_depths_subtokens token :
  heading_depths token
  = match token with Token.heading d _ => [d] | _ => [] end
      ++ headings_of (subtokens token).
Proof.
  destruct token as [| | |head body| | | | | | |? []| | | | | | | | |];
    try reflexivity.
  change (heading_depths (Token.table head body))
    with (headings_of_cells head ++ headings_of_rows body).
  simpl. by rewrite headings_of_app, headings_of_cells_concat,
    headings_of_rows_concat.
Qed.

Lemma index_after_on_top tokens i :
  headings_on_top tokens ->
  index_after tokens i = (i + length (headings_of tokens))%nat.
Proof.
  intros Ht. revert i. induction Ht as [|token tokens Hb _ IH]; intros i.
  - simpl. lia.
  - change (index_after (token :: tokens) i)
      with (index_after tokens (if is_heading token then S i else i)).
    simpl. rewrite IH, length_app, heading_depths_subtokens, Hb, app_nil_r.
    destruct token; simpl; lia.
Qed.

Section WalkProperties.
Context `{Collaborators}.

Lemma stripTokens_from_in_order tokens :
  Forall walks_in_order tokens ->
  forall h i s,
    (i < length s)%nat ->
    exists s',
      stripTokens_from h tokens i s = Some s'
      /\ depth <$> s' = (depth <$> s) ++ headings_of tokens.
Proof.
  induction 1 as [|token tokens Ht _ IH]; intros h i s Hi; simpl.
  - exists s. by rewrite app_nil_r.
  - destruct (Ht h i s Hi) as (s' & -> & Hd). simpl.
    pose proof (depths_length _ _ _ Hd) as Hl.
    destruct (IH h (if is_heading token then S i else i) s')
      as (s'' & -> & Hd').
    { destruct (is_heading token) eqn:E; [|lia].
      apply heading_depths_heading in E.
      destruct (heading_depths token); [done|simpl in Hl; lia]. }
    exists s''. split; [done|]. by rewrite Hd', Hd, <- app_assoc.
Qed.

Lemma stripChildren_in_order inner tokens :
  Forall walks_in_order tokens ->
  forall i s,
    (i < length s)%nat ->
    exists s',
      stripChildren inner tokens i s = Some (i, s')
      /\ depth <$> s' = (depth <$> s) ++ headings_of tokens.
Proof.
  intros Ht i s Hi. unfold stripChildren.
  destruct (stripTokens_from_in_order tokens Ht inner (length s - 1)%nat s)
    as (s' & -> & Hd); [lia|].
  by exists s'.
Qed.

Lemma stripCells_in_order row :
  Forall (Forall walks_in_order) row ->
  forall h i s,
    (i < length s)%nat ->
    exists s',
      stripCells h i row s = Some s'
      /\ depth <$> s' = (depth <$> s) ++ headings_of_cells row.
Proof.
  induction 1 as [|cell row Hc _ IH]; intros h i s Hi; simpl.
  - exists s. by rewrite app_nil_r.
  - destruct (stripTokens_from_in_order cell Hc h (length s - 1)%nat s)
      as (s1 & -> & Hd1); [lia|]. simpl.
    pose proof (depths_length _ _ _ Hd1).
    destruct (append_keeps_depths h (js " ") i s1) as (s2 & -> & Hd2); [lia|].
    simpl. pose proof (depths_length s1 s2 []) as Hl2.
    rewrite app_nil_r in Hl2. specialize (Hl2 Hd2). simpl in Hl2.
    destruct (IH h i s2) as (s3 & -> & Hd3); [lia|].
    exists s3. split; [done|]. by rewrite Hd3, Hd2, Hd1, <- app_assoc.
Qed.

Lemma stripRows_in_order body :
  Forall (Forall (Forall walks_in_order)) body ->
  forall h i s,
    (i < length s)%nat ->
    exists s',
      stripRows h i body s = Some s'
      /\ depth <$> s' = (depth <$> s) ++ headings_of_rows body.
Proof.
  induction 1 as [|row body Hr _ IH]; intros h i s Hi; simpl.
  - exists s. by rewrite app_nil_r.
  - destruct (stripCells_in_order row Hr h i s Hi) as (s1 & -> & Hd1). simpl.
    pose proof (depths_length _ _ _ Hd1).
    destruct (append_keeps_depths h [NL] i s1) as (s2 & -> & Hd2); [lia|].
    simpl. pose proof (depths_length s1 s2 []) as Hl2.
    rewrite app_nil_r in Hl2. specialize (Hl2 Hd2). simpl in Hl2.
    destruct (IH h i s2) as (s3 & -> & Hd3); [lia|].
    exists s3. split; [done|]. by rewrite Hd3, Hd2, Hd1, <- app_assoc.
Qed.

Ltac writes Hi :=
  match goal with
  | |- context [append ?h ?x ?i ?s] =>
      let s' := fresh "s" in
      let Hd := fresh "Hd" in
      destruct (append_keeps_depths h x i s Hi) as (s' & -> & Hd);
      simpl; exists s'; split; [done|]; by rewrite app_nil_r
  end.

Lemma stripToken_in_order token : walks_in_order token.
Proof.
  induction token as [token IH] using Token_subtokens_ind.
  intros h i s Hi.
  destruct (recurses_only token) as [tokens|] eqn:Hr.
  { rewrite (stripToken_recurses_only _ _ _ _ _ Hr).
    assert (subtokens token = tokens /\ is_heading token = false
            /\ heading_depths token = headings_of tokens) as (<- & -> & ->).
    { destruct token as [| | | | | | | | | |? []| | | | | | | | |];
        simpl in *; try discriminate; by injection Hr as <-. }
    apply (stripChildren_in_order false _ IH i s Hi). }
  destruct token as [raw|lang text|d tokens|head body| |tokens|items|tokens
                    |tokens|text|raw [tokens|]| | |tokens|title text|tokens
                    |tokens|text| |tokens];
    try discriminate; simpl in IH.
  - simpl. writes Hi.
  - simpl. destruct (bool_decide _).
    + exists s. by rewrite app_nil_r.
    + writes Hi.
  - rewrite stripToken_heading.
    destruct (open_section_depths d i s Hi) as (s1 & -> & Hd1). simpl.
    pose proof (depths_length _ _ _ Hd1) as Hl1. simpl in Hl1.
    destruct (stripChildren_in_order true _ IH (S i) s1) as (s2 & -> & Hd2);
      [lia|].
    exists s2. split; [done|].
    change (heading_depths (Token.heading d tokens))
      with (d :: headings_of tokens).
    by rewrite Hd2, Hd1, <- app_assoc.
  - rewrite stripToken_table.
    apply Forall_app in IH as [Hh Hb].
    apply Forall_concat in Hh.
    apply Forall_concat in Hb. apply (proj1 (Forall_concat _ _)) in Hb.
    destruct (stripCells_in_order head Hh h i s Hi) as (s1 & -> & Hd1). simpl.
    pose proof (depths_length _ _ _ Hd1).
    destruct (append_keeps_depths h [NL] i s1) as (s2 & -> & Hd2); [lia|].
    simpl. pose proof (depths_length s1 s2 []) as Hl2.
    rewrite app_nil_r in Hl2. specialize (Hl2 Hd2). simpl in Hl2.
    destruct (stripRows_in_order body Hb h i s2) as (s3 & -> & Hd3); [lia|].
    simpl. exists s3. split; [done|].
    change (heading_depths (Token.table head body))
      with (headings_of_cells head ++ headings_of_rows body).
    by rewrite Hd3, Hd2, Hd1, <- app_assoc.
  - exists s. by rewrite app_nil_r.
  - rewrite stripToken_list.
    destruct (stripTokens_from_in_order items IH h (length s - 1)%nat s)
      as (s1 & -> & Hd1); [lia|].
    simpl. by exists s1.
  - rewrite stripToken_list_item.
    destruct (stripChildren_in_order false _ IH i s Hi) as (s1 & -> & Hd1).
    simpl. pose proof (depths_length _ _ _ Hd1).
    destruct (append_keeps_depths h [NL] i s1) as (s2 & -> & Hd2); [lia|].
    simpl. exists s2. split; [done|].
    change (heading_depths (Token.list_item tokens))
      with (headings_of tokens).
    by rewrite Hd2, Hd1.
  - simpl. writes Hi.
  - simpl. writes Hi.
  - exists s. by rewrite app_nil_r.
  - exists s. by rewrite app_nil_r.
  - simpl. writes Hi.
  - simpl. writes Hi.
  - exists s. by rewrite app_nil_r.
Qed.

Lemma stripTokens_from_walk tokens h i s :
  (i < length s)%nat ->
  exists s',
    stripTokens_from h tokens i s = Some s'
    /\ depth <$> s' = (depth <$> s) ++ headings_of tokens.
Proof.
  apply stripTokens_from_in_order, Forall_forall.
  intros token _. apply stripToken_in_order.
Qed.

(** X10.  [stripTokens] on an array that is not empty never throws; it leaves
    the sections that are there in place and adds, behind them, one section
    for every heading token of the tree, of the depth of the heading, in
    document order. *)
Theorem stripTokens_one_section_per_heading (tokens : list Token.t)
    (sections : list MarkdownSections) (header : bool) :
  sections <> [] ->
  exists sections',
    stripTokens tokens sections header = Some sections'
    /\ depth <$> sections' = (depth <$> sections) ++ headings_of tokens.
Proof.
  intros Hne. apply stripTokens_from_walk.
  destruct sections; [done|simpl; lia].
Qed.

(** X11.  [stripSplitBySections] returns the root section, of depth 0, and
    behind it one section for each heading of the token tree that marked
    makes of the text without its formulas. *)
Theorem stripSplitBySections_depths (markdown : jsstring)
    (opts : RenderOptions.t) (store : Store) :
  exists sections,
    stripSplitBySections markdown opts store = Some sections
    /\ depth <$> sections
       = 0 :: headings_of
                (marked_lexer (strip_source markdown)
                   (lexer_options opts store)).
Proof.
  unfold stripSplitBySections, stripTokens.
  apply (stripTokens_from_walk _ false _ [root_section]). simpl. lia.
Qed.

Lemma after_lt token i (s s' : list MarkdownSections) :
  (i < length s)%nat ->
  depth <$> s' = (depth <$> s) ++ heading_depths token ->
  ((if is_heading token then S i else i) < length s')%nat.
Proof.
  intros Hi Hd. apply depths_length in Hd.
  destruct (is_heading token) eqn:E; [|lia].
  apply heading_depths_heading in E.
  destruct (heading_depths token); [done|simpl in Hd; lia].
Qed.

(** The loop over [tokens ++ more] is the loop over [tokens], then the loop
    over [more] from the index the first has reached. *)
Lemma stripTokens_from_app tokens more h i s :
  (i < length s)%nat ->
  stripTokens_from h (tokens ++ more) i s
  = (s' ← stripTokens_from h tokens i s;
     stripTokens_from h more (index_after tokens i) s').
Proof.
  revert i s. induction tokens as [|token tokens IH]; intros i s Hi.
  { done. }
  simpl. destruct (stripToken_in_order token h i s Hi) as (s' & -> & Hd).
  simpl. apply IH. by apply (after_lt token i s).
Qed.

(** X12.  As long as no token holds a heading below it, the walk writes to the
    last section: the text of a token that follows [tokens] is appended to
    the section that the last heading of [tokens] has opened. *)
Theorem stripTokens_text_goes_to_last_section (tokens : list Token.t)
    (init : list MarkdownSections) (x : MarkdownSections) (header : bool)
    (raw : jsstring) :
  headings_on_top tokens ->
  exists init' x',
    stripTokens tokens (init ++ [x]) header = Some (init' ++ [x'])
    /\ stripTokens (tokens ++ [Token.text raw None]) (init ++ [x]) header
       = Some (init' ++ [append_field header x' raw]).
Proof.
  intros Ht. unfold stripTokens.
  assert (Hi : (length (init ++ [x]) - 1 < length (init ++ [x]))%nat).
  { rewrite length_app. simpl. lia. }
  rewrite stripTokens_from_app by done.
  destruct (stripTokens_from_walk tokens header _ _ Hi) as (s' & -> & Hd).
  apply depths_length in Hd. simpl.
  rewrite (index_after_on_top _ _ Ht).
  destruct s' as [|y s'] using rev_ind.
  { rewrite length_app in Hd. simpl in Hd. lia. }
  clear IHs'. exists s', y. split; [done|].
  rewrite !length_app in Hd. simpl in Hd.
  replace (length (init ++ [x]) - 1 + length (headings_of tokens))%nat
    with (length s' + 0)%nat by (rewrite length_app; simpl; lia).
  unfold append. rewrite lookup_app_r by lia.
  replace (length s' + 0 - length s')%nat with O by lia.
  simpl. by rewrite insert_app_r.
Qed.

(** X13.  A heading below another token, a block quote or a list item, leaves
    the walk behind: the section it opens is the last one, but the text of
    the token that follows is appended to the section the caller was at,
    which is the last one no more. *)
Theorem stripTokens_heading_below_a_token (token : Token.t)
    (sections : list MarkdownSections) (header : bool) (raw : jsstring) :
  is_heading token = false -> heading_depths token <> [] ->
  sections <> [] ->
  exists sections' x,
    stripTokens [token] sections header = Some sections'
    /\ (length sections - 1 < length sections' - 1)%nat
    /\ sections' !! (length sections - 1)%nat = Some x
    /\ stripTokens [token; Token.text raw None] sections header
       = Some (<[(length sections - 1)%nat := append_field header x raw]>
                 sections').
Proof.
  intros Hh Hd Hne. unfold stripTokens.
  assert (Hi : (length sections - 1 < length sections)%nat).
  { destruct sections; [done|simpl; lia]. }
  change [token; Token.text raw None] with ([token] ++ [Token.text raw None]).
  rewrite stripTokens_from_app by done.
  destruct (stripTokens_from_walk [token] header _ _ Hi) as (s' & -> & Hs').
  apply depths_length in Hs'. simpl in Hs'. rewrite app_nil_r in Hs'.
  assert (Hl : (length sections - 1 < length s' - 1)%nat).
  { destruct (heading_depths token); [done|simpl in Hs'; lia]. }
  destruct (lookup_lt_is_Some_2 s' (length sections - 1)%nat) as [x Hx];
    [lia|].
  exists s', x. split; [done|]. split; [done|]. split; [done|].
  unfold index_after. simpl. rewrite Hh. unfold append. by rewrite Hx.
Qed.

End WalkProperties.

(** ** Who writes to a header *)

Lemma append_keeps_headers x index sections :
  (index < length sections)%nat ->
  exists sections',
    append false x index sections = Some sections'
    /\ header <$> sections' = header <$> sections.
Proof.
  intros Hi. destruct (lookup_lt_is_Some_2 _ _ Hi) as [s Hs].
  unfold append. rewrite Hs. simpl. eexists. split; [done|].
  rewrite list_fmap_insert. apply list_insert_id.
  by rewrite list_lookup_fmap, Hs.
Qed.

Lemma headers_length (s s' : list MarkdownSections) :
  header <$> s' = header <$> s -> length s' = length s.
Proof. intros E. apply (f_equal length) in E. by rewrite !length_fmap in E. Qed.

Section Headers.
Context `{Collaborators}.

Lemma stripTokens_from_keeps_headers tokens :
  Forall keeps_headers tokens -> headings_of tokens = [] ->
  forall i s,
    (i < length s)%nat ->
    exists s',
      stripTokens_from false tokens i s = Some s'
      /\ header <$> s' = header <$> s.
Proof.
  induction 1 as [|token tokens Ht _ IH]; intros Hh i s Hi; simpl.
  - by exists s.
  - simpl in Hh. apply app_eq_nil in Hh as [Hh1 Hh2].
    destruct (Ht Hh1 i s Hi) as (s' & -> & Hs'). simpl.
    destruct (IH Hh2 i s') as (s'' & -> & Hs'').
    { by rewrite (headers_length _ _ Hs'). }
    exists s''. split; [done|]. by rewrite Hs'', Hs'.
Qed.

Lemma stripChildren_keeps_headers tokens :
  Forall keeps_headers tokens -> headings_of tokens = [] ->
  forall i s,
    (i < length s)%nat ->
    exists s',
      stripChildren false tokens i s = Some (i, s')
      /\ header <$> s' = header <$> s.
Proof.
  intros Ht Hh i s Hi. unfold stripChildren.
  destruct (stripTokens_from_keeps_headers tokens Ht Hh (length s - 1)%nat s)
    as (s' & -> & Hs'); [lia|].
  by exists s'.
Qed.

Lemma stripCells_keeps_headers row :
  Forall (Forall keeps_headers) row -> headings_of_cells row = [] ->
  forall i s,
    (i < length s)%nat ->
    exists s',
      stripCells false i row s = Some s'
      /\ header <$> s' = header <$> s.
Proof.
  induction 1 as [|cell row Hc _ IH]; intros Hh i s Hi; simpl.
  - by exists s.
  - simpl in Hh. apply app_eq_nil in Hh as [Hh1 Hh2].
    destruct (stripTokens_from_keeps_headers cell Hc Hh1 (length s - 1)%nat s)
      as (s1 & -> & Hs1); [lia|]. simpl.
    pose proof (headers_length _ _ Hs1) as Hl1.
    destruct (append_keeps_headers (js " ") i s1) as (s2 & -> & Hs2); [lia|].
    simpl. pose proof (headers_length _ _ Hs2) as Hl2.
    destruct (IH Hh2 i s2) as (s3 & -> & Hs3); [lia|].
    exists s3. split; [done|]. by rewrite Hs3, Hs2, Hs1.
Qed.

Lemma stripRows_keeps_headers body :
  Forall (Forall (Forall keeps_headers)) body -> headings_of_rows body = [] ->
  forall i s,
    (i < length s)%nat ->
    exists s',
      stripRows false i body s = Some s'
      /\ header <$> s' = header <$> s.
Proof.
  induction 1 as [|row body Hr _ IH]; intros Hh i s Hi; simpl.
  - by exists s.
  - simpl in Hh. apply app_eq_nil in Hh as [Hh1 Hh2].
    destruct (stripCells_keeps_headers row Hr Hh1 i s Hi) as (s1 & -> & Hs1).
    simpl. pose proof (headers_length _ _ Hs1) as Hl1.
    destruct (append_keeps_headers [NL] i s1) as (s2 & -> & Hs2); [lia|].
    simpl. pose proof (headers_length _ _ Hs2) as Hl2.
    destruct (IH Hh2 i s2) as (s3 & -> & Hs3); [lia|].
    exists s3. split; [done|]. by rewrite Hs3, Hs2, Hs1.
Qed.

Ltac writes_content Hi :=
  match goal with
  | |- context [append false ?x ?i ?s] =>
      let s' := fresh "s" in
      let Hs := fresh "Hs" in
      destruct (append_keeps_headers x i s Hi) as (s' & -> & Hs);
      simpl; by exists s'
  end.

Lemma stripToken_keeps_headers token : keeps_headers token.
Proof.
  induction token as [token IH] using Token_subtokens_ind.
  intros Hh i s Hi.
  destruct (recurses_only token) as [tokens|] eqn:Hr.
  { rewrite (stripToken_recurses_only _ _ _ _ _ Hr).
    assert (subtokens token = tokens
            /\ heading_depths token = headings_of tokens) as (<- & E).
    { destruct token as [| | | | | | | | | |? []| | | | | | | | |];
        simpl in *; try discriminate; by injection Hr as <-. }
    rewrite E in Hh. apply (stripChildren_keeps_headers _ IH Hh i s Hi). }
  destruct token as [raw|lang text|d tokens|head body| |tokens|items|tokens
                    |tokens|text|raw [tokens|]| | |tokens|title text|tokens
                    |tokens|text| |tokens];
    try discriminate; simpl in IH.
  - simpl. writes_content Hi.
  - simpl. destruct (bool_decide _); [by exists s|writes_content Hi].
  - rewrite stripToken_table.
    change (heading_depths (Token.table head body))
      with (headings_of_cells head ++ headings_of_rows body) in Hh.
    apply app_eq_nil in Hh as [Hh1 Hh2].
    apply Forall_app in IH as [Hhead Hbody].
    apply Forall_concat in Hhead.
    apply Forall_concat in Hbody. apply (proj1 (Forall_concat _ _)) in Hbody.
    destruct (stripCells_keeps_headers head Hhead Hh1 i s Hi)
      as (s1 & -> & Hs1).
    simpl. pose proof (headers_length _ _ Hs1) as Hl1.
    destruct (append_keeps_headers [NL] i s1) as (s2 & -> & Hs2); [lia|].
    simpl. pose proof (headers_length _ _ Hs2) as Hl2.
    destruct (stripRows_keeps_headers body Hbody Hh2 i s2) as (s3 & -> & Hs3);
      [lia|].
    simpl. exists s3. split; [done|]. by rewrite Hs3, Hs2, Hs1.
  - by exists s.
  - rewrite stripToken_list.
    change (heading_depths (Token.list_ items)) with (headings_of items) in Hh.
    destruct (stripTokens_from_keeps_headers items IH Hh (length s - 1)%nat s)
      as (s1 & -> & Hs1); [lia|].
    simpl. by exists s1.
  - rewrite stripToken_list_item.
    change (heading_depths (Token.list_item tokens))
      with (headings_of tokens) in Hh.
    destruct (stripChildren_keeps_headers _ IH Hh i s Hi) as (s1 & -> & Hs1).
    simpl. pose proof (headers_length _ _ Hs1) as Hl1.
    destruct (append_keeps_headers [NL] i s1) as (s2 & -> & Hs2); [lia|].
    simpl. exists s2. split; [done|]. by rewrite Hs2, Hs1.
  - simpl. writes_content Hi.
  - simpl. writes_content Hi.
  - by exists s.
  - by exists s.
  - simpl. writes_content Hi.
  - simpl. writes_content Hi.
  - by exists s.
Qed.

Lemma stripTokens_from_headers tokens i s :
  headings_of tokens = [] -> (i < length s)%nat ->
  exists s',
    stripTokens_from false tokens i s = Some s'
    /\ header <$> s' = header <$> s
    /\ depth <$> s' = depth <$> s.
Proof.
  intros Hh Hi.
  destruct (stripTokens_from_keeps_headers tokens) with (i := i) (s := s)
    as (s' & Hs' & Hhd); [|done..|].
  { apply Forall_forall. intros token _. apply stripToken_keeps_headers. }
  exists s'. split; [done|]. split; [done|].
  destruct (stripTokens_from_walk tokens false i s Hi) as (s'' & Hs'' & Hd).
  rewrite Hs' in Hs''. injection Hs'' as <-.
  by rewrite Hd, Hh, app_nil_r.
Qed.

(** X14.  Outside a heading nothing is written to a header: a walk over
    tokens that hold no heading, with the header flag off, leaves the
    header of every section as it is and adds no section. *)
Theorem stripTokens_keeps_headers (tokens : list Token.t)
    (sections : list MarkdownSections) :
  headings_of tokens = [] -> sections <> [] ->
  exists sections',
    stripTokens tokens sections false = Some sections'
    /\ header <$> sections' = header <$> sections
    /\ depth <$> sections' = depth <$> sections.
Proof.
  intros Hh Hne. apply stripTokens_from_headers; [done|].
  destruct sections; [done|simpl; lia].
Qed.

(** X15.  Of the text of a heading, only what stands in the heading itself
    goes to the header.  The tokens below a link, an emphasis or any other
    markup are walked with the header flag off: a heading whose text is all
    inside one markup token opens a section with an empty header. *)
Theorem heading_text_below_markup_misses_header (d : N)
    (markup : Token.t) (tokens : list Token.t)
    (sections : list MarkdownSections) (header_flag : bool) :
  recurses_only markup = Some tokens -> headings_of tokens = [] ->
  sections <> [] ->
  exists sections' opened,
    stripTokens [Token.heading d [markup]] sections header_flag
    = Some (sections' ++ [opened])
    /\ length sections' = length sections
    /\ header opened = [] /\ depth opened = d.
Proof.
  intros Hr Hh Hne. unfold stripTokens.
  assert (Hi : (length sections - 1 < length sections)%nat).
  { destruct sections; [done|simpl; lia]. }
  cbn [stripTokens_from]. rewrite stripToken_heading.
  destruct (lookup_lt_is_Some_2 _ _ Hi) as [sec Hsec].
  unfold open_section. rewrite Hsec. simpl.
  set (s0 := <[(length sections - 1)%nat := close_section sec]> sections).
  set (new := {| header := []; depth := d; content := [] |}).
  assert (Hl0 : length s0 = length sections) by apply length_insert.
  unfold stripChildren. cbn [stripTokens_from].
  rewrite (stripToken_recurses_only _ _ _ _ _ Hr). unfold stripChildren.
  assert (Hi1 : (length (s0 ++ [new]) - 1 < length (s0 ++ [new]))%nat).
  { rewrite length_app. simpl. lia. }
  destruct (stripTokens_from_headers tokens _ (s0 ++ [new]) Hh Hi1)
    as (s' & Hs' & Hhd & Hd).
  rewrite Hs'. simpl.
  pose proof (headers_length _ _ Hhd) as Hl.
  rewrite length_app in Hl. simpl in Hl.
  destruct s' as [|x s'] using rev_ind; [simpl in Hl; lia|]. clear IHs'.
  rewrite length_app in Hl. simpl in Hl.
  exists s', x. split; [done|]. split; [lia|].
  rewrite !fmap_app in Hhd. rewrite !fmap_app in Hd. simpl in Hhd, Hd.
  apply app_inj_tail in Hhd as [_ ->]. by apply app_inj_tail in Hd as [_ ->].
Qed.

End Headers.

(** X16.  For a document with no heading, [strip] gives the content of the one
    section, its ends trimmed and its runs of line feeds replaced, and a
    line feed. *)
Theorem strip_without_headings `{Collaborators} (markdown : jsstring)
    (opts : RenderOptions.t) (store : Store) :
  headings_of
    (marked_lexer (strip_source markdown) (lexer_options opts store)) = [] ->
  exists section,
    stripSplitBySections markdown opts store = Some [section]
    /\ header section = [] /\ depth section = 0
    /\ strip markdown opts store
       = Some (normalize (content section) ++ [NL]).
Proof.
  intros Hh. unfold strip, stripSplitBySections, stripTokens.
  destruct (stripTokens_from_headers _ (length [root_section] - 1)%nat
              [root_section] Hh) as (s' & -> & Hhd & Hd); [simpl; lia|].
  destruct s' as [|section [|? ?]]; try done.
  injection Hhd as Hhd. injection Hd as Hd.
  exists section. split; [done|]. split; [done|]. split; [done|].
  simpl. unfold assemble. simpl. rewrite Hhd. reflexivity.
Qed.

(** ** Closing a section *)

(** Where no three line feeds stand in a row, the replacement of the runs
    changes nothing. *)
Lemma collapse_newlines_fixed s :
  has_newline_run3 s = false -> collapse_newlines s = s.
Proof.
  induction s as [|c s IH]; [done|].
  destruct (N.eq_dec c NL) as [->|Hc].
  - rewrite has_newline_run3_cons_NL. intros [Hl Hs]%orb_false_iff.
    rewrite collapse_short, IH; [done..|].
    rewrite lead_cons_NL. apply Nat.leb_gt in Hl. lia.
  - rewrite has_newline_run3_cons_other by done. intros Hs.
    by rewrite collapse_cons_other, IH.
Qed.

Lemma collapse_newlines_head s c :
  c <> NL -> head s = Some c -> head (collapse_newlines s) = Some c.
Proof.
  destruct s as [|d s]; [done|]. intros Hc [= ->].
  by rewrite collapse_cons_other.
Qed.

Lemma normalize_shape s :
  has_newline_run3 (normalize s) = false /\ trim (normalize s) = normalize s.
Proof.
  unfold normalize. split; [apply collapse_newlines_runs|].
  apply trim_fixed.
  - intros c Hc. destruct (trim s) as [|d r] eqn:E; [done|].
    assert (Hd : isWhiteSpace d = false) by (apply (trim_head s); by rewrite E).
    rewrite collapse_cons_other in Hc by (by intros ->).
    by injection Hc as <-.
  - intros c Hc. apply (trim_last s).
    by rewrite <- (proj2 (proj2 (collapse_newlines_runs (trim s)))).
Qed.

(** X17.  What a heading does to the section it closes, it does once and for
    all: the header and the content come out with no white space at either
    end and no run of three line feeds, and closing the section again, as a
    later heading may, changes nothing. *)
Theorem close_section_settles (s : MarkdownSections) :
  close_section (close_section s) = close_section s
  /\ depth (close_section s) = depth s
  /\ has_newline_run3 (header (close_section s)) = false
  /\ has_newline_run3 (content (close_section s)) = false
  /\ trim (header (close_section s)) = header (close_section s)
  /\ trim (content (close_section s)) = content (close_section s).
Proof.
  destruct (normalize_shape (header s)) as [Hh3 Hht].
  destruct (normalize_shape (content s)) as [Hc3 Hct].
  repeat split; try done.
  unfold close_section. simpl. f_equal.
  - unfold normalize at 1. by rewrite Hht, collapse_newlines_fixed.
  - unfold normalize at 1. by rewrite Hct, collapse_newlines_fixed.
Qed.

(** ** The renderer *)

Section RendererProperties.
Context `{Collaborators}.

Lemma split_comma_first_segment l rest :
  44 ∉ l ->
  split_comma_first l = l /\ split_comma_first (l ++ 44 :: rest) = l.
Proof.
  induction l as [|c l IH]; [done|].
  intros [Hc Hl]%not_elem_of_cons. simpl.
  destruct (N.eqb_spec c 44); [done|].
  destruct (IH Hl) as [-> ->]. done.
Qed.

(** X18.  [code] throws in one case only: the normalised language is [math],
    the renderer allows math, and KaTeX throws on the code; the exception is
    the one of KaTeX. *)
Theorem code_throws_only_for_math (this : Renderer.t) (c : jsstring)
    (language : option jsstring) (e : jsstring) :
  Renderer.code this c language = Throw e ->
  Renderer.code_language language = Some (js "math")
  /\ Renderer.allowMath this = true
  /\ katex_renderToString c true = Throw e.
Proof.
  unfold Renderer.code.
  destruct (bool_decide _ && _) eqn:E.
  - apply andb_true_iff in E as [E1%bool_decide_eq_true E2]. done.
  - destruct (Renderer.code_language language) as [l|]; [|done].
    destruct (truthy (Some l)); [|done].
    by destruct (Prism_languages l).
Qed.

(** X19.  The language of a code block is what stands before the first comma
    of the info string, in lower case: when Prism has a grammar under that
    name, the block is highlighted with it and its class carries the name. *)
Theorem code_highlights_first_segment (this : Renderer.t)
    (c l rest info : jsstring) (g : Grammar) :
  44 ∉ l ->
  info = l \/ info = l ++ 44 :: rest ->
  toLocaleLowerCase l <> [] ->
  Prism_languages (toLocaleLowerCase l) = Some g ->
  ~ (toLocaleLowerCase l = js "math" /\ Renderer.allowMath this = true) ->
  Renderer.code this c (Some info)
  = Ok (jsq "<div class='highlight highlight-source-"
          ++ toLocaleLowerCase l ++ jsq " notranslate'><pre>"
          ++ Prism_highlight c g (toLocaleLowerCase l)
          ++ js "</pre></div>").
Proof.
  intros Hl Hinfo Hne Hg Hmath.
  assert (Renderer.code_language (Some info) = Some (toLocaleLowerCase l))
    as Hlang.
  { unfold Renderer.code_language. simpl.
    destruct (split_comma_first_segment l rest Hl) as [E1 E2].
    by destruct Hinfo as [-> | ->]; rewrite ?E1, ?E2. }
  unfold Renderer.code. rewrite Hlang.
  destruct (bool_decide _ && _) eqn:E.
  { apply andb_true_iff in E as [E1%bool_decide_eq_true E2].
    destruct Hmath. split; [congruence|done]. }
  destruct (toLocaleLowerCase l) as [|a b] eqn:El; [done|].
  simpl. by rewrite Hg.
Qed.

Lemma heading_frame this text level raw :
  Renderer.allowMath (Renderer.heading this text level raw).2
  = Renderer.allowMath this
  /\ Renderer.baseUrl (Renderer.heading this text level raw).2
     = Renderer.baseUrl this.
Proof.
  unfold Renderer.heading.
  by destruct (GitHubSlugger.slug (Renderer.slugger this) raw).
Qed.


(** A parse on a renderer that does not allow math comes to its end. *)
Lemma run_returns p this :
  Renderer.allowMath this = false ->
  exists html, (Renderer.run p this).1 = Ok html.
Proof.
  revert this.
  induction p as [html|text level raw cont IH|src title alt cont IH
                 |c language cont IH|href title text cont IH];
    intros this Hm; simpl; eauto.
  - destruct (heading_frame this text level raw) as [Hm' _].
    destruct (Renderer.heading this text level raw) as [[fragment slug] this'].
    simpl in Hm'. apply IH. congruence.
  - destruct (code_returns this c language) as [fragment ->]; [|by apply IH].
    intros [_ E]. congruence.
Qed.

(** X20.  [render] returns HTML and throws nothing when the renderer it
    works with does not allow math and, unless the sanitization is off, no
    key of the caller's [allowedAttributes] names an inherited property of
    objects that the default attributes lack.  With a renderer of the
    caller it is the [allowMath] of that renderer that counts, not the one
    of the options. *)
Theorem render_returns_without_math (markdown : jsstring)
    (opts : RenderOptions.t) (store : Store) (this : Renderer.t) :
  renderer_in_use opts store = Some this ->
  Renderer.allowMath this = false ->
  RenderOptions.disableHtmlSanitization opts = true
  \/ (forall tag,
        is_Some (RenderOptions.allowedAttributes opts !! tag) ->
        defaultAllowedAttributes opts !! tag = None ->
        Object_prototype_has tag = false) ->
  exists html, (render markdown opts store).1.1 = Ok html.
Proof.
  intros Hr Hm Hkeys.
  assert (Hhtml : exists html, (render_html markdown opts store).1 = Ok html).
  { unfold render_html, getOpts, renderer_in_use in *. simpl.
    destruct (RenderOptions.renderer opts) as [r|]; simpl.
    - rewrite Hr.
      match goal with
      | |- context [Renderer.run ?p this] =>
          destruct (run_returns p this Hm) as [html Hh];
          destruct (Renderer.run p this) as [res this']
      end.
      simpl in *. eauto.
    - injection Hr as <-.
      rewrite lookup_app_r, Nat.sub_diag by done. simpl.
      match goal with
      | |- context [Renderer.run ?p ?t] =>
          destruct (run_returns p t Hm) as [html Hh];
          destruct (Renderer.run p t) as [res this']
      end.
      simpl in *. eauto. }
  destruct Hhtml as [html Hhtml]. unfold render.
  destruct (render_html markdown opts store) as [res s]. simpl in Hhtml.
  subst res.
  cbn [fill_mediaBaseUrl RenderOptions.disableHtmlSanitization
       RenderOptions.allowedAttributes].
  change (defaultAllowedAttributes (fill_mediaBaseUrl opts))
    with (defaultAllowedAttributes opts).
  destruct (RenderOptions.disableHtmlSanitization opts); [by eexists|].
  destruct Hkeys as [?|Hkeys]; [done|].
  destruct (mergeAttributes_returns _ _ Hkeys) as [merged ->]. by eexists.
Qed.



End RendererProperties.

(** ** The options of the sanitizer *)

Section SanitizerOptions.
Context `{Collaborators}.

(** X22.  [transformMedia] touches the [src] attribute at most: the tag name
    comes back as it is, every other attribute keeps its value, and with no
    media base URL, or no [src] that is not empty, all attributes do. *)
Theorem transformMedia_touches_src_only (opts : RenderOptions.t)
    (tagName : jsstring) (attribs : Attributes) :
  (transformMedia opts tagName attribs).1 = tagName
  /\ (forall k, k <> js "src" ->
                (transformMedia opts tagName attribs).2 !! k = attribs !! k)
  /\ (truthy (RenderOptions.mediaBaseUrl opts) = false
      \/ truthy (attribs !! js "src") = false ->
      transformMedia opts tagName attribs = (tagName, attribs)).
Proof.
  unfold transformMedia.
  destruct (truthy (RenderOptions.mediaBaseUrl opts)) eqn:Hb;
    destruct (truthy (attribs !! js "src")) eqn:Hs; simpl;
    try (repeat split; try done; intros [?|?]; done).
  destruct (URL_href _ _); simpl.
  - repeat split; [|by intros [?|?]].
    intros k Hk. by rewrite lookup_insert_ne.
  - repeat split; [|by intros [?|?]].
    intros k Hk. by rewrite lookup_delete_ne.
Qed.

(** X23.  When the caller gives a [baseUrl] and no [mediaBaseUrl], the media
    are resolved against the [baseUrl]: [render] hands the sanitizer a
    transformer for [img] and [video] that replaces a [src] by its
    resolution against [baseUrl]. *)
Theorem media_base_defaults_to_baseUrl (opts : RenderOptions.t)
    (tagName : jsstring) (attribs : Attributes)
    (base src resolved : jsstring) :
  RenderOptions.mediaBaseUrl opts = None ->
  RenderOptions.baseUrl opts = Some base -> base <> [] ->
  attribs !! js "src" = Some src -> src <> [] ->
  URL_href src base = Ok resolved ->
  transformMedia (fill_mediaBaseUrl opts) tagName attribs
  = (tagName, <[js "src" := resolved]> attribs)
  /\ forall merged,
       SanitizeOptions.transformTags
         (sanitize_options (fill_mediaBaseUrl opts) merged)
       = [(js "img", transformMedia (fill_mediaBaseUrl opts));
          (js "video", transformMedia (fill_mediaBaseUrl opts))].
Proof.
  intros Hm Hb Hbne Hs Hsne Hu. split; [|reflexivity].
  unfold transformMedia, fill_mediaBaseUrl. simpl.
  rewrite Hm, Hb, Hs. simpl.
  destruct base; [done|]. destruct src; [done|]. simpl. by rewrite Hu.
Qed.

(** X24.  [mergeAttributes] throws, a TypeError, exactly when the caller
    names a key that the defaults lack and that objects inherit from
    [Object.prototype].  In every other case it returns the union tag by
    tag: an attribute is allowed on a tag after the merge exactly when the
    defaults or the caller allow it on that tag, and no default is lost,
    as it is for the classes. *)
Theorem mergeAttributes_is_union
    (defaults customs : gmap jsstring (list AllowedAttribute)) :
  ((exists e, mergeAttributes defaults customs = Throw e)
   <-> exists tag,
         is_Some (customs !! tag) /\ defaults !! tag = None
         /\ Object_prototype_has tag = true)
  /\ (forall e, mergeAttributes defaults customs = Throw e ->
                e = js "TypeError")
  /\ (forall merged tag a,
        mergeAttributes defaults customs = Ok merged ->
        a ∈ default [] (merged !! tag)
        <-> a ∈ default [] (defaults !! tag)
            \/ a ∈ default [] (customs !! tag)).
Proof.
  pose proof (mergeAttributes_spec defaults customs) as Hs.
  split; [|split].
  - destruct (mergeAttributes defaults customs) as [merged|e].
    + destruct Hs as [_ Hown]. split; [by intros [? ?]|].
      intros (tag & Htag & Hnone & Hp).
      rewrite (Hown tag Htag Hnone) in Hp. done.
    + destruct Hs as [_ Hs]. split; [done|by eexists].
  - intros e He. rewrite He in Hs. apply Hs.
  - intros merged tag a Hm. rewrite (mergeAttributes_lookup _ _ _ tag Hm).
    destruct (customs !! tag) as [custom|]; simpl.
    + apply elem_of_app.
    + split; [by left|]. intros [?|E]; [done|]. by apply elem_of_nil in E.
Qed.

End SanitizerOptions.

(** ** What [allowMath] does to the allow-lists *)

(** Two object literals with the same keys, in the same order, and related
    values, over related bases, have related properties. *)
Lemma object_literal_related {V : Type} (R : V -> V -> Prop)
    (props props' : list (string * V)) :
  Forall2 (fun p p' => p.1 = p'.1 /\ R p.2 p'.2) props props' ->
  forall (base base' : gmap jsstring V) k,
    option_Forall2 R (base !! k) (base' !! k) ->
    option_Forall2 R (object_literal base props !! k)
      (object_literal base' props' !! k).
Proof.
  unfold object_literal.
  induction 1 as [|[n v] [n' v'] props props' [Hn Hv] _ IH];
    intros base base' k Hb; [done|].
  simpl in *. subst n'. apply IH.
  destruct (decide (js n = k)) as [->|Hk].
  - rewrite !lookup_insert_eq. by constructor.
  - by rewrite !lookup_insert_ne.
Qed.

Lemma classes_app_widen (base extra extra' : list jsstring) :
  (forall x, x ∈ extra -> x ∈ extra') ->
  forall l,
    classes (base ++ extra) = ClassesList l ->
    exists l',
      classes (base ++ extra') = ClassesList l'
      /\ forall p, p ∈ l -> p ∈ l'.
Proof.
  intros Hx l [= <-]. eexists. split; [reflexivity|].
  intros p. rewrite !fmap_app, !elem_of_app.
  intros [?|(x & -> & Hin)%list_elem_of_fmap]; [by left|right].
  apply list_elem_of_fmap. exists x. split; [done|by apply Hx].
Qed.

Ltac pairwise :=
  repeat match goal with
         | |- Forall2 _ (_ :: _) (_ :: _) =>
             constructor; [split; [reflexivity|]|]
         | |- Forall2 _ [] [] => constructor
         end.

Section AllowMath.
Context `{Collaborators}.

Lemma defaultAllowedAttributes_widen opts tag :
  option_Forall2 (fun l l' => forall a : AllowedAttribute, a ∈ l -> a ∈ l')
    (defaultAllowedAttributes opts !! tag)
    (defaultAllowedAttributes (with_allowMath true opts) !! tag).
Proof.
  unfold defaultAllowedAttributes. apply object_literal_related.
  - simpl. pairwise; simpl; try done.
    intros a. destruct (RenderOptions.allowMath opts); [done|].
    by intros ?%elem_of_nil.
  - destruct (sanitizeHtml_defaults_allowedAttributes !! tag);
      by constructor.
Qed.

Lemma defaultAllowedClasses_widen opts tag :
  option_Forall2
    (fun c c' =>
       forall l, c = ClassesList l ->
                 exists l', c' = ClassesList l'
                            /\ forall p, p ∈ l -> p ∈ l')
    (defaultAllowedClasses opts !! tag)
    (defaultAllowedClasses (with_allowMath true opts) !! tag).
Proof.
  unfold defaultAllowedClasses. apply object_literal_related.
  - cbn [fst snd]. pairwise; cbn [fst snd];
      try (intros l [= <-]; eexists; split; [reflexivity|done]).
    apply classes_app_widen. intros x.
    destruct (RenderOptions.allowMath opts); [done|].
    by intros ?%elem_of_nil.
  - rewrite lookup_empty. constructor.
Qed.

(** X25.  Setting [allowMath] widens the allow-lists handed to the sanitizer
    and takes nothing from them: every tag, every attribute of a tag and
    every class of a tag that passes without [allowMath] passes with it,
    and where the attributes merge without [allowMath] they merge with
    it. *)
Theorem allowMath_only_widens (opts : RenderOptions.t) :
  (forall merged merged' t,
     t ∈ SanitizeOptions.allowedTags (sanitize_options opts merged) ->
     t ∈ SanitizeOptions.allowedTags
           (sanitize_options (with_allowMath true opts) merged'))
  /\ (forall merged,
        mergeAttributes (defaultAllowedAttributes opts)
          (RenderOptions.allowedAttributes opts) = Ok merged ->
        exists merged',
          mergeAttributes
            (defaultAllowedAttributes (with_allowMath true opts))
            (RenderOptions.allowedAttributes (with_allowMath true opts))
          = Ok merged'
          /\ forall tag a,
               a ∈ default []
                     (SanitizeOptions.allowedAttributes
                        (sanitize_options opts merged) !! tag) ->
               a ∈ default []
                     (SanitizeOptions.allowedAttributes
                        (sanitize_options (with_allowMath true opts) merged')
                        !! tag))
  /\ (forall merged merged' tag l resolved,
        SanitizeOptions.allowedClasses (sanitize_options opts merged)
        = Some resolved ->
        resolved !! tag = Some (ClassesList l) ->
        exists resolved' l',
          SanitizeOptions.allowedClasses
            (sanitize_options (with_allowMath true opts) merged')
          = Some resolved'
          /\ resolved' !! tag = Some (ClassesList l')
          /\ forall p, p ∈ l -> p ∈ l').
Proof.
  split; [|split].
  - intros merged merged' t.
    cbn [sanitize_options SanitizeOptions.allowedTags].
    rewrite !elem_of_app. intros [Ht|Ht]; [left|by right].
    unfold defaultAllowedTags in *. simpl.
    destruct (RenderOptions.allowMath opts); [done|].
    apply elem_of_app. by left.
  - intros merged Hm.
    change (RenderOptions.allowedAttributes (with_allowMath true opts))
      with (RenderOptions.allowedAttributes opts).
    pose proof (mergeAttributes_spec (defaultAllowedAttributes opts)
                  (RenderOptions.allowedAttributes opts)) as Hs.
    rewrite Hm in Hs. destruct Hs as [_ Hown].
    destruct (mergeAttributes_returns
                (defaultAllowedAttributes (with_allowMath true opts))
                (RenderOptions.allowedAttributes opts)) as [merged' Hm'].
    { intros tag Htag Hnone. apply Hown; [done|].
      pose proof (defaultAllowedAttributes_widen opts tag) as Hw.
      rewrite Hnone in Hw. by inversion Hw. }
    exists merged'. split; [done|]. intros tag a.
    cbn [sanitize_options SanitizeOptions.allowedAttributes].
    rewrite (mergeAttributes_lookup _ _ _ tag Hm).
    rewrite (mergeAttributes_lookup _ _ _ tag Hm').
    pose proof (defaultAllowedAttributes_widen opts tag) as Hw.
    destruct (RenderOptions.allowedAttributes opts !! tag) as [custom|];
      destruct Hw as [l l' Hl|]; cbn [default from_option id];
      rewrite ?elem_of_app; intuition auto.
  - intros merged merged' tag l resolved [= <-].
    cbn [sanitize_options SanitizeOptions.allowedClasses
         RenderOptions.allowedClasses with_allowMath].
    rewrite lookup_union. intros Hl.
    pose proof (defaultAllowedClasses_widen opts tag) as Hw.
    assert (exists l',
              (RenderOptions.allowedClasses opts
                 ∪ defaultAllowedClasses (with_allowMath true opts)) !! tag
              = Some (ClassesList l')
              /\ forall p, p ∈ l -> p ∈ l') as (l' & Hl' & Hin).
    { rewrite lookup_union.
      destruct (RenderOptions.allowedClasses opts !! tag) as [c|] eqn:Ec.
      - destruct Hw as [d d' _|]; simpl in Hl |- *; injection Hl as ->;
          by exists l.
      - destruct Hw as [d d' Hd|]; simpl in Hl |- *; [|done].
        injection Hl as ->. destruct (Hd l eq_refl) as (l' & -> & Hl').
        by exists l'. }
    by eexists _, l'.
Qed.

(** A property of an object literal comes from the base or from one of the
    properties written out. *)
Lemma object_literal_lookup_Some {V : Type} (props : list (string * V))
    (base : gmap jsstring V) k v :
  object_literal base props !! k = Some v ->
  base !! k = Some v \/ exists p, p ∈ props /\ js p.1 = k /\ p.2 = v.
Proof.
  unfold object_literal. revert base.
  induction props as [|p props IH]; intros base; simpl; [by left|].
  intros [Hb|(p' & Hp' & Hk & Hv)]%IH.
  - apply lookup_insert_Some in Hb as [[Hk Hv]|[_ Hb]]; [right|by left].
    exists p. split; [by left|done].
  - right. exists p'. split; [by right|done].
Qed.

Lemma style_not_from_the_module opts tag :
  RenderOptions.allowMath opts = false ->
  AttrName (js "style") ∈ default [] (defaultAllowedAttributes opts !! tag) ->
  AttrName (js "style")
    ∈ default [] (sanitizeHtml_defaults_allowedAttributes !! tag).
Proof.
  intros Hm. unfold defaultAllowedAttributes. rewrite Hm.
  destruct (object_literal _ _ !! tag) as [l|] eqn:E;
    [|by intros ?%elem_of_nil].
  apply object_literal_lookup_Some in E as [->|(p & Hp & _ & <-)]; [done|].
  intros Hin. exfalso. revert Hin.
  repeat (apply elem_of_cons in Hp as [->|Hp];
          [apply not_elem_of_decide; vm_compute; reflexivity|]).
  by apply elem_of_nil in Hp.
Qed.

(** [mathml_tags] are the tags that [allowMath] adds. *)
Lemma mathml_tags_added opts :
  defaultAllowedTags (with_allowMath true opts)
  = defaultAllowedTags (with_allowMath false opts) ++ mathml_tags.
Proof. reflexivity. Qed.

(** X26.  Without [allowMath] the markup of formulas does not pass on the
    account of this module: a MathML tag is allowed only when the defaults
    of the sanitizer or the caller allow it, and so is the [style]
    attribute on any tag. *)
Theorem math_markup_needs_allowMath (opts : RenderOptions.t) :
  RenderOptions.allowMath opts = false ->
  (forall merged t,
     t ∈ mathml_tags ->
     t ∈ SanitizeOptions.allowedTags (sanitize_options opts merged) ->
     t ∈ sanitizeHtml_defaults_allowedTags
     \/ t ∈ RenderOptions.allowedTags opts)
  /\ (forall merged tag,
        mergeAttributes (defaultAllowedAttributes opts)
          (RenderOptions.allowedAttributes opts) = Ok merged ->
        AttrName (js "style")
          ∈ default []
              (SanitizeOptions.allowedAttributes
                 (sanitize_options opts merged) !! tag) ->
        AttrName (js "style")
          ∈ default [] (sanitizeHtml_defaults_allowedAttributes !! tag)
        \/ AttrName (js "style")
             ∈ default [] (RenderOptions.allowedAttributes opts !! tag)).
Proof.
  intros Hm. split.
  - intros merged t Ht. cbn [sanitize_options SanitizeOptions.allowedTags].
    unfold defaultAllowedTags. rewrite Hm.
    assert (Hout : Forall
                     (fun t => t ∉ (js <$> ["img"; "video"; "svg"; "path";
                                            "circle"; "figure"; "figcaption";
                                            "del"; "details"; "summary";
                                            "input"]) ++ [js "iframe"])
                     mathml_tags).
    { apply Forall_forall. intros x Hx. unfold mathml_tags in Hx.
      cbn [fmap list_fmap] in Hx.
      repeat (apply elem_of_cons in Hx as [->|Hx];
              [apply not_elem_of_decide; vm_compute; reflexivity|]).
      by apply elem_of_nil in Hx. }
    rewrite Forall_forall in Hout. specialize (Hout t Ht).
    apply not_elem_of_app in Hout as [Hmodule Hiframe].
    destruct (RenderOptions.allowIframes opts);
      rewrite !elem_of_app; intuition auto.
  - intros merged tag Hmerged.
    cbn [sanitize_options SanitizeOptions.allowedAttributes].
    rewrite (mergeAttributes_lookup _ _ _ tag Hmerged).
    pose proof (style_not_from_the_module opts tag Hm) as Hs.
    destruct (RenderOptions.allowedAttributes opts !! tag) as [custom|];
      cbn [default from_option id] in *; rewrite ?elem_of_app;
      intuition auto.
Qed.

End AllowMath.

(** ** The properties on concrete inputs *)

Section MoreExamples.
Import Standin Inputs Samples.
Local Existing Instance Standin.collaborators.

Lemma mathify_without_opening_witness :
  math_opening leading_formula = false
  /\ mathify leading_formula = leading_formula.
Proof.
  split; [reflexivity|]. apply mathify_without_opening. reflexivity.
Defined.



Lemma mathify_inline_formula_witness :
  isWhiteSpace NL = true
  /\ mathify inline_formula
     = js "sum" ++ js " " ++ jsq "<span class='katex'>x+y</span>"
         ++ js " of both".
Proof.
  split; [reflexivity|].
  apply (mathify_inline_formula (js "sum") (js "x+y") (js " of both")
           (jsq "<span class='katex'>x+y</span>") NL).
  - apply not_elem_of_decide. reflexivity.
  - reflexivity.
  - discriminate.
  - repeat (constructor; [split; [reflexivity|discriminate]|]). constructor.
  - intros c [= <-]. reflexivity.
  - reflexivity.
  - reflexivity.
  - reflexivity.
Defined.


Lemma INLINE_MATH_REGEXP_match_shape_witness :
  INLINE_MATH_REGEXP (js " $x+y$ of both") = Some (js " $x+y$", js "x+y")
  /\ exists w rest,
       js " $x+y$ of both" = js " $x+y$" ++ rest
       /\ js " $x+y$" = [w; DOLLAR] ++ js "x+y" ++ [DOLLAR]
       /\ isWhiteSpace w = true
       /\ formula_text (js "x+y")
       /\ (forall c, head (js "x+y") = Some c -> isWhiteSpace c = false).
Proof.
  split; [reflexivity|].
  apply (INLINE_MATH_REGEXP_match_shape (js " $x+y$ of both")).
  reflexivity.
Defined.

Lemma strip_source_without_opening_witness :
  math_opening (emojify leading_formula) = false
  /\ strip_source leading_formula = emojify leading_formula.
Proof.
  split; [reflexivity|]. apply strip_source_without_opening. reflexivity.
Defined.

Lemma stripTokens_one_section_per_heading_witness :
  [root_section] <> []
  /\ exists sections',
       stripTokens [title; quoted_heading] [root_section] false
       = Some sections'
       /\ depth <$> sections' = (depth <$> [root_section]) ++ [1; 2].
Proof.
  split; [discriminate|].
  apply (stripTokens_one_section_per_heading [title; quoted_heading]
           [root_section] false).
  discriminate.
Defined.

Lemma stripTokens_text_goes_to_last_section_witness :
  headings_on_top [title]
  /\ exists init' x',
       stripTokens [title] ([] ++ [root_section]) false = Some (init' ++ [x'])
       /\ stripTokens ([title] ++ [Token.text (js "after") None])
            ([] ++ [root_section]) false
          = Some (init' ++ [append_field false x' (js "after")]).
Proof.
  assert (Ht : headings_on_top [title]) by (by repeat constructor).
  split; [exact Ht|].
  exact (stripTokens_text_goes_to_last_section [title] [] root_section false
           (js "after") Ht).
Defined.

Lemma stripTokens_heading_below_a_token_witness :
  is_heading quoted_heading = false
  /\ heading_depths quoted_heading = [2]
  /\ exists sections' x,
       stripTokens [quoted_heading] [root_section] false = Some sections'
       /\ (length [root_section] - 1 < length sections' - 1)%nat
       /\ sections' !! (length [root_section] - 1)%nat = Some x
       /\ stripTokens [quoted_heading; Token.text (js "after") None]
            [root_section] false
          = Some (<[(length [root_section] - 1)%nat :=
                      append_field false x (js "after")]> sections').
Proof.
  split; [reflexivity|]. split; [reflexivity|].
  apply (stripTokens_heading_below_a_token quoted_heading [root_section]
           false (js "after")); [reflexivity|discriminate|discriminate].
Defined.

Lemma stripTokens_keeps_headers_witness :
  headings_of [bold] = []
  /\ exists sections',
       stripTokens [bold] [root_section] false = Some sections'
       /\ header <$> sections' = header <$> [root_section]
       /\ depth <$> sections' = depth <$> [root_section].
Proof.
  split; [reflexivity|].
  apply (stripTokens_keeps_headers [bold] [root_section]);
    [reflexivity|discriminate].
Defined.

Lemma heading_text_below_markup_misses_header_witness :
  recurses_only bold = Some [Token.text (js "B") None]
  /\ exists sections' opened,
       stripTokens [Token.heading 1 [bold]] [root_section] false
       = Some (sections' ++ [opened])
       /\ length sections' = length [root_section]
       /\ header opened = [] /\ depth opened = 1.
Proof.
  split; [reflexivity|].
  apply (heading_text_below_markup_misses_header 1 bold
           [Token.text (js "B") None] [root_section] false);
    [reflexivity|reflexivity|discriminate].
Defined.

Lemma strip_without_headings_witness :
  headings_of
    (marked_lexer (strip_source (js "plain")) (lexer_options no_options []))
  = []
  /\ exists section,
       stripSplitBySections (js "plain") no_options [] = Some [section]
       /\ header section = [] /\ depth section = 0
       /\ strip (js "plain") no_options []
          = Some (normalize (content section) ++ [NL]).
Proof.
  split; [reflexivity|].
  apply (strip_without_headings (js "plain") no_options []). reflexivity.
Defined.

Lemma code_throws_only_for_math_witness :
  Renderer.code (Renderer.new (with_allowMath true no_options))
    invalid_formula (Some (js "math")) = Throw (js "ParseError")
  /\ Renderer.code_language (Some (js "math")) = Some (js "math")
  /\ Renderer.allowMath (Renderer.new (with_allowMath true no_options)) = true
  /\ katex_renderToString invalid_formula true = Throw (js "ParseError").
Proof.
  split; [reflexivity|].
  apply (code_throws_only_for_math
           (Renderer.new (with_allowMath true no_options))
           invalid_formula (Some (js "math")) (js "ParseError")).
  reflexivity.
Defined.

Lemma code_highlights_first_segment_witness :
  toLocaleLowerCase (js "TS") = js "ts"
  /\ Renderer.code (Renderer.new no_options) (js "let x")
       (Some (js "TS, ignore"))
     = Ok (jsq "<div class='highlight highlight-source-ts notranslate'><pre>"
             ++ js "let x" ++ js "</pre></div>").
Proof.
  split; [reflexivity|].
  apply (code_highlights_first_segment (Renderer.new no_options)
           (js "let x") (js "TS") (js " ignore") (js "TS, ignore")
           (tt : @Grammar Standin.collaborators)).
  - apply not_elem_of_decide. reflexivity.
  - right. reflexivity.
  - discriminate.
  - reflexivity.
  - intros [E _]. discriminate E.
Defined.

Lemma render_returns_without_math_witness :
  renderer_in_use no_options [] = Some (Renderer.new no_options)
  /\ (forall tag,
        is_Some (RenderOptions.allowedAttributes no_options !! tag) ->
        Object_prototype_has tag = false)
  /\ exists html, (render foo_heading no_options []).1.1 = Ok html.
Proof.
  split; [reflexivity|]. split.
  { intros tag [custom E]. unfold no_options in E.
    cbn [RenderOptions.allowedAttributes] in E.
    rewrite lookup_empty in E. discriminate E. }
  apply (render_returns_without_math foo_heading no_options []
           (Renderer.new no_options)); [reflexivity|reflexivity|].
  right. intros tag [custom E]. unfold no_options in E.
  cbn [RenderOptions.allowedAttributes] in E.
  rewrite lookup_empty in E. discriminate E.
Defined.


Lemma math_markup_needs_allowMath_witness :
  RenderOptions.allowMath no_options = false
  /\ (forall merged t,
        t ∈ mathml_tags ->
        t ∈ SanitizeOptions.allowedTags
              (sanitize_options no_options merged) ->
        t ∈ sanitizeHtml_defaults_allowedTags
        \/ t ∈ RenderOptions.allowedTags no_options).
Proof.
  split; [reflexivity|].
  apply (math_markup_needs_allowMath no_options). reflexivity.
Defined.

Lemma media_base_defaults_to_baseUrl_witness :
  RenderOptions.mediaBaseUrl base_only = None
  /\ RenderOptions.baseUrl base_only = Some (js "https://example.com/")
  /\ transformMedia (fill_mediaBaseUrl base_only) (js "img")
       {[ js "src" := js "a.png" ]}
     = (js "img", <[js "src" := js "https://example.com/a.png"]>
                    {[ js "src" := js "a.png" ]}).
Proof.
  split; [reflexivity|]. split; [reflexivity|].
  apply (media_base_defaults_to_baseUrl base_only (js "img")
           {[ js "src" := js "a.png" ]} (js "https://example.com/")
           (js "a.png") (js "https://example.com/a.png")).
  - reflexivity.
  - reflexivity.
  - discriminate.
  - vm_compute. reflexivity.
  - discriminate.
  - reflexivity.
Defined.

Lemma walkTokens_shortens_first_summary_witness :
  indexOf (summary ++ (js "</summary>" ++ [NL; NL]) ++ [])
    (js "</summary>" ++ [NL; NL]) = Some (length summary)
  /\ walkTokens (Token.html (summary ++ (js "</summary>" ++ [NL; NL]) ++ []))
     = Token.html (summary ++ (js "</summary>" ++ [NL]) ++ []).
Proof.
  split; [reflexivity|].
  apply (walkTokens_shortens_first_summary summary []);
    [reflexivity|by left].
Defined.

End MoreExamples.
